(** * Browser tool (src/tools/browser/browser.ts): ref table, snapshot
      grammar, ref resolver, session manager and action dispatcher.

    JavaScript strings are sequences of UTF-16 code units; they are modelled
    as lists of code-unit numbers.  The numbers of the input ([maxChars],
    [timeMs]) are modelled as [Z]: values that are not integers (fractions,
    NaN) are outside the model.  The number that [parseInt] returns for the
    digits of an nth marker is a double: the integer written, rounded to the
    nearest double, or Infinity. *)

From Stdlib Require Import String Ascii.
From Stdlib Require Import List NArith ZArith Bool Lia.
Import ListNotations.

Set Implicit Arguments.

(** ** JavaScript strings *)

Definition jsstring := list N.

Definition js (s : string) : jsstring :=
  map N_of_ascii (list_ascii_of_string s).

Definition jsstring_eqb (a b : jsstring) : bool :=
  if list_eq_dec N.eq_dec a b then true else false.

Definition LF : N := 10.      (* '\n' *)
Definition DQUOTE : N := 34.  (* the double quote character *)

(** [s.split(sep)] for a one-code-unit separator: always at least one piece. *)
Fixpoint split (sep : N) (s : jsstring) : list jsstring :=
  match s with
  | [] => [[]]
  | c :: s' =>
      if N.eqb c sep then [] :: split sep s'
      else match split sep s' with
           | l :: ls => (c :: l) :: ls
           | [] => [[c]]
           end
  end.

(** [s.slice(0, e)] for an integer [e]: a negative end counts from the end of
    the string, and the end is clamped to [0, s.length]. *)
Definition slice0 (s : jsstring) (e : Z) : jsstring :=
  let len := Z.of_nat (length s) in
  let final := if (e <? 0)%Z then Z.max (len + e) 0 else Z.min e len in
  firstn (Z.to_nat final) s.

(** ** Regular expressions

    The subset of JavaScript regular expressions the file uses: an optional
    leading [^], then a sequence of single-character atoms, each taken once
    or under a greedy [*] / [+], with the parentheses of capture group 1.
    Matching is the backtracking search of the language: greedy quantifiers
    try the longest run first and give characters back one at a time. *)

Definition is_digit (c : N) : bool := ((48 <=? c) && (c <=? 57))%N.

Definition is_word (c : N) : bool :=
  (((65 <=? c) && (c <=? 90)) || ((97 <=? c) && (c <=? 122))
   || is_digit c || (c =? 95))%N.

(** [\s]: WhiteSpace and LineTerminator code units. *)
Definition is_space (c : N) : bool :=
  (((9 <=? c) && (c <=? 13)) || (c =? 32) || (c =? 160) || (c =? 5760)
   || ((8192 <=? c) && (c <=? 8202)) || (c =? 8232) || (c =? 8233)
   || (c =? 8239) || (c =? 8287) || (c =? 12288) || (c =? 65279))%N.

Inductive atom :=
| Chr (c : N)        (* a literal character *)
| NotChr (c : N)     (* [^c] *)
| Digit              (* \d *)
| Word               (* \w *)
| Space.             (* \s *)

Definition atom_ok (a : atom) (c : N) : bool :=
  match a with
  | Chr d => N.eqb c d
  | NotChr d => negb (N.eqb c d)
  | Digit => is_digit c
  | Word => is_word c
  | Space => is_space c
  end.

Inductive quant := Once | Star | Plus.

Inductive node :=
| Item (a : atom) (q : quant)
| GroupOpen
| GroupClose.

Record regex := { anchored : bool; body : list node }.

(** Greedy run of characters satisfying [ok], continuing with [k]. *)
Fixpoint star (R : Type) (ok : N -> bool) (k : jsstring -> option R)
         (s : jsstring) : option R :=
  match s with
  | c :: s' =>
      if ok c then
        match star ok k s' with
        | Some m => Some m
        | None => k s
        end
      else k s
  | [] => k []
  end.

(** [exec r op cap s]: match the nodes [r] at the start of [s]; [op] is the
    input where group 1 opened and [cap] its text once closed.  The result is
    the text of group 1. *)
Fixpoint exec (r : list node) (op : jsstring) (cap : jsstring)
         (s : jsstring) : option jsstring :=
  match r with
  | [] => Some cap
  | GroupOpen :: r' => exec r' s cap s
  | GroupClose :: r' => exec r' op (firstn (length op - length s) op) s
  | Item a Once :: r' =>
      match s with
      | c :: s' => if atom_ok a c then exec r' op cap s' else None
      | [] => None
      end
  | Item a Star :: r' => star (atom_ok a) (exec r' op cap) s
  | Item a Plus :: r' =>
      match s with
      | c :: s' =>
          if atom_ok a c then star (atom_ok a) (exec r' op cap) s' else None
      | [] => None
      end
  end.

(** Leftmost match: try every start position in turn. *)
Fixpoint search (r : list node) (s : jsstring) : option jsstring :=
  match exec r [] [] s with
  | Some g => Some g
  | None =>
      match s with
      | _ :: s' => search r s'
      | [] => None
      end
  end.

(** [s.match(re)] for a regex without the [g] flag, reduced to what the
    callers read: [None] when there is no match, else capture group 1. *)
Definition re_match (re : regex) (s : jsstring) : option jsstring :=
  if anchored re then exec (body re) [] [] s else search (body re) s.

Definition lits (s : string) : list node :=
  map (fun c => Item (Chr c) Once) (js s).

(** /\[ref=(e\d+)\]/ *)
Definition ref_re : regex :=
  {| anchored := false;
     body := lits "[ref=" ++ [GroupOpen; Item (Chr 101) Once; Item Digit Plus;
                              GroupClose; Item (Chr 93) Once] |}.

(** /^\s*-\s*(\w+)/ *)
Definition role_re : regex :=
  {| anchored := true;
     body := [Item Space Star; Item (Chr 45) Once; Item Space Star;
              GroupOpen; Item Word Plus; GroupClose] |}.

(** /Q([^Q]+)Q/ where Q is the double quote character *)
Definition name_re : regex :=
  {| anchored := false;
     body := [Item (Chr DQUOTE) Once; GroupOpen; Item (NotChr DQUOTE) Plus;
              GroupClose; Item (Chr DQUOTE) Once] |}.

(** /\[nth=(\d+)\]/ *)
Definition nth_re : regex :=
  {| anchored := false;
     body := lits "[nth=" ++ [GroupOpen; Item Digit Plus; GroupClose;
                              Item (Chr 93) Once] |}.

(** A Number that is a non-negative integer or +Infinity. *)
Inductive jsnumber :=
| Finite (n : N)
| PlusInfinity.

(** The Number value of a non-negative integer: the nearest double, ties to
    the even significand; integers below 2^53 are doubles, the spacing of
    doubles in [2^b, 2^(b+1)) is 2^(b-52), and what rounds to 2^1024 or more
    is +Infinity. *)
Definition to_double (n : N) : jsnumber :=
  if (n <? 2 ^ 53)%N then Finite n
  else
    let shift := (N.log2 n - 52)%N in
    let significand := N.shiftr n shift in
    let rest := (n - N.shiftl significand shift)%N in
    let half := N.shiftl 1 (shift - 1) in
    let rounded :=
      if ((half <? rest) || ((rest =? half) && N.odd significand))%N
      then (significand + 1)%N else significand in
    let v := N.shiftl rounded shift in
    if (v <? 2 ^ 1024)%N then Finite v else PlusInfinity.

(** [parseInt(s, 10)] on a string of decimal digits: the integer the digits
    write, as a Number.  Every digit counts, as in the engines (the language
    standard lets an implementation read the digits after the 20th as 0). *)
Definition parseInt10 (s : jsstring) : jsnumber :=
  to_double (fold_left (fun acc c => (acc * 10 + (c - 48))%N) s 0%N).

(** [n > 0] *)
Definition is_positive (n : jsnumber) : bool :=
  match n with
  | Finite k => (0 <? k)%N
  | PlusInfinity => true
  end.

(** ** The ref table *)

Record RefData :=
  { role : jsstring; name : option jsstring; nth : option jsnumber }.

(** A JavaScript [Map] keeps its entries in insertion order; [set] on a key
    already present replaces the value in place. *)
Definition RefMap := list (jsstring * RefData).

Fixpoint map_set (m : RefMap) (k : jsstring) (v : RefData) : RefMap :=
  match m with
  | [] => [(k, v)]
  | (k', v') :: m' =>
      if jsstring_eqb k' k then (k, v) :: m' else (k', v') :: map_set m' k v
  end.

Fixpoint map_get (m : RefMap) (k : jsstring) : option RefData :=
  match m with
  | [] => None
  | (k', v') :: m' => if jsstring_eqb k' k then Some v' else map_get m' k
  end.

Definition map_size (m : RefMap) : nat := length m.
Definition map_keys (m : RefMap) : list jsstring := map fst m.

(** Body of the [for (const line of lines)] loop of parseRefsFromSnapshot. *)
Definition parse_line (refs : RefMap) (line : jsstring) : RefMap :=
  match re_match ref_re line with
  | None => refs
  | Some ref =>
      let role :=
        match re_match role_re line with
        | Some r => r
        | None => js "generic"
        end in
      let name := re_match name_re line in
      let nth :=
        match re_match nth_re line with
        | Some d => Some (parseInt10 d)
        | None => None
        end in
      map_set refs ref {| role := role; name := name; nth := nth |}
  end.

Definition parseRefsFromSnapshot (snapshot : jsstring) : RefMap :=
  fold_left parse_line (split LF snapshot) [].

Definition q (s : jsstring) : jsstring := DQUOTE :: s ++ [DQUOTE].

(** ** Driver objects and locators *)

Definition Browser := nat.
Record Context := { ctx_id : nat; ctx_browser : Browser }.
Record Page := { page_id : nat; context : Context }.

Definition Context_eqb (a b : Context) : bool :=
  Nat.eqb (ctx_id a) (ctx_id b) && Nat.eqb (ctx_browser a) (ctx_browser b).
Definition Page_eqb (a b : Page) : bool :=
  Nat.eqb (page_id a) (page_id b) && Context_eqb (context a) (context b).

(** The options object handed to [getByRole]: [{}] or [{ name, exact }]. *)
Record role_options :=
  { opt_name : option jsstring; opt_exact : option bool }.

Inductive locator :=
| Locator (p : Page) (selector : jsstring)               (* p.locator(sel) *)
| GetByRole (p : Page) (role : jsstring) (o : role_options)
| Nth (l : locator) (n : jsnumber).                       (* l.nth(n) *)

(** A string is truthy when it is not empty. *)
Definition truthy (s : jsstring) : bool :=
  match s with [] => false | _ => true end.

Definition present (o : option jsstring) : bool :=
  match o with Some s => truthy s | None => false end.

(** [resolveRefToLocator(p, ref)], reading the module variable [currentRefs]
    passed here as [refs]. *)
Definition resolveRefToLocator (refs : RefMap) (p : Page) (ref : jsstring)
  : locator :=
  match map_get refs ref with
  | None => Locator p (js "aria-ref=" ++ ref)
  | Some refData =>
      let options :=
        match name refData with
        | Some n =>
            if truthy n then {| opt_name := Some n; opt_exact := Some true |}
            else {| opt_name := None; opt_exact := None |}
        | None => {| opt_name := None; opt_exact := None |}
        end in
      let locator := GetByRole p (role refData) options in
      match nth refData with
      | Some n => if is_positive n then Nth locator n else locator
      | None => locator
      end
  end.

(** ** Truncation of the snapshot text (the tail of takeSnapshot) *)

Definition TRUNCATION_MARKER : jsstring :=
  [LF; LF]
  ++ js "[...TRUNCATED - page too large, use read action for full text]".

Definition truncate (snapshot : jsstring) (maxChars : option Z)
  : jsstring * bool :=
  let limit := match maxChars with Some m => m | None => 50000%Z end in
  if (Z.of_nat (length snapshot) >? limit)%Z
  then (slice0 snapshot limit ++ TRUNCATION_MARKER, true)
  else (snapshot, false).

(** ** Module state, driver world and the effect monad *)

(** The calls made to the driver.  Every call, [p.url()] included, is
    allowed to throw: the statements about all answers of the driver then
    cover more failures than the driver has.  [page.context()] only reads
    the page object and is the projection [context]. *)
Inductive call :=
| Launch
| NewContext (b : Browser)
| NewPage (c : Context)
| BrowserClose (b : Browser)
| Goto (p : Page) (url : jsstring)
| PageUrl (p : Page)
| PageTitle (p : Page)
| WaitForLoadState (p : Page) (timeout : Z)
| SnapshotForAI (p : Page)
| AriaSnapshot (p : Page)
| Click (l : locator)
| Fill (l : locator) (text : jsstring)
| Hover (l : locator)
| KeyboardPress (p : Page) (key : jsstring)
| MouseWheel (p : Page) (dx dy : Z)
| WaitForTimeout (p : Page) (ms : Z)
| Evaluate (p : Page).

(** What the driver answers to a call: it throws, or it returns a value
    ([None] for undefined).  [Throws message] carries the text that the
    [catch] of browserTool.func reads from the thrown value
    ([err.message], or [String(err)] for a value that is not an Error). *)
Inductive response :=
| Throws (message : jsstring)
| Returns (v : option jsstring).

(** The text of an answer.  For _snapshotForAI this is the coercion of the
    code, [String(result?.full ?? '')] with [v] the field [full].  The other
    calls read through [text_of] ([url], [title], [ariaSnapshot], the
    [innerText] of [evaluate]) are typed by the driver as returning a
    string and the code uses their value as it is: an answer without a value
    is outside the driver's type and only stands for the empty string. *)
Definition text_of (v : option jsstring) : jsstring :=
  match v with Some s => s | None => [] end.

Record state := {
  (* the module variables *)
  browser : option Browser;
  page : option Page;
  currentRefs : RefMap;
  (* the driver: objects created so far and still open *)
  next_id : nat;
  open_browsers : list Browser;
  open_pages : list Page;
  snapshotForAI : bool;   (* does the page object have _snapshotForAI *)
  (* the driver calls made, in order, the log, the answers to come *)
  calls : list call;
  log : list jsstring;
  env : list response
}.

Definition init (has_ai : bool) (e : list response) : state :=
  {| browser := None; page := None; currentRefs := [];
     next_id := 0; open_browsers := []; open_pages := [];
     snapshotForAI := has_ai; calls := []; log := []; env := e |}.

Definition set_browser (b : option Browser) (st : state) : state :=
  {| browser := b; page := page st; currentRefs := currentRefs st;
     next_id := next_id st; open_browsers := open_browsers st;
     open_pages := open_pages st; snapshotForAI := snapshotForAI st;
     calls := calls st; log := log st; env := env st |}.

Definition set_page (p : option Page) (st : state) : state :=
  {| browser := browser st; page := p; currentRefs := currentRefs st;
     next_id := next_id st; open_browsers := open_browsers st;
     open_pages := open_pages st; snapshotForAI := snapshotForAI st;
     calls := calls st; log := log st; env := env st |}.

Definition set_currentRefs (r : RefMap) (st : state) : state :=
  {| browser := browser st; page := page st; currentRefs := r;
     next_id := next_id st; open_browsers := open_browsers st;
     open_pages := open_pages st; snapshotForAI := snapshotForAI st;
     calls := calls st; log := log st; env := env st |}.

Definition set_world (n : nat) (bs : list Browser) (ps : list Page)
           (st : state) : state :=
  {| browser := browser st; page := page st; currentRefs := currentRefs st;
     next_id := n; open_browsers := bs; open_pages := ps;
     snapshotForAI := snapshotForAI st;
     calls := calls st; log := log st; env := env st |}.

Definition set_env (e : list response) (st : state) : state :=
  {| browser := browser st; page := page st; currentRefs := currentRefs st;
     next_id := next_id st; open_browsers := open_browsers st;
     open_pages := open_pages st; snapshotForAI := snapshotForAI st;
     calls := calls st; log := log st; env := e |}.

Definition add_log (m : jsstring) (st : state) : state :=
  {| browser := browser st; page := page st; currentRefs := currentRefs st;
     next_id := next_id st; open_browsers := open_browsers st;
     open_pages := open_pages st; snapshotForAI := snapshotForAI st;
     calls := calls st; log := log st ++ [m]; env := env st |}.

(** The call is recorded and the next answer of the driver consumed; a
    driver with no scripted answer left returns undefined. *)
Definition next_answer (st : state) : response :=
  match env st with r :: _ => r | [] => Returns None end.

Definition answer (c : call) (st : state) : response * state :=
  (next_answer st,
   {| browser := browser st; page := page st; currentRefs := currentRefs st;
      next_id := next_id st; open_browsers := open_browsers st;
      open_pages := open_pages st; snapshotForAI := snapshotForAI st;
      calls := calls st ++ [c]; log := log st; env := tl (env st) |}).

Inductive result (A : Type) :=
| Val (a : A)
| Exn (message : jsstring).
Arguments Exn {A} message.

Definition M (A : Type) := state -> result A * state.

Definition ret {A} (a : A) : M A := fun st => (Val a, st).

Definition bind {A B} (m : M A) (k : A -> M B) : M B :=
  fun st =>
    match m st with
    | (Val a, st') => k a st'
    | (Exn e, st') => (Exn e, st')
    end.

Notation "x <- m ;; k" := (bind m (fun x => k))
  (at level 61, m at next level, right associativity).
Notation "m ;;; k" := (bind m (fun _ => k))
  (at level 61, right associativity).

Definition get {A} (f : state -> A) : M A := fun st => (Val (f st), st).
Definition modify (f : state -> state) : M unit := fun st => (Val tt, f st).

(** [m.catch(() => {})]: a failure of [m] is swallowed. *)
Definition swallow {A} (m : M A) : M unit :=
  fun st => (Val tt, snd (m st)).

(** A driver call without an effect on the set of open objects. *)
Definition driver (c : call) : M (option jsstring) :=
  fun st =>
    match answer c st with
    | (Throws e, st') => (Exn e, st')
    | (Returns v, st') => (Val v, st')
    end.

Definition launch : M Browser :=
  driver Launch ;;;
  b <- get next_id ;;
  modify (fun st => set_world (S b) (b :: open_browsers st) (open_pages st) st) ;;;
  ret b.

Definition newContext (b : Browser) : M Context :=
  driver (NewContext b) ;;;
  i <- get next_id ;;
  modify (fun st => set_world (S i) (open_browsers st) (open_pages st) st) ;;;
  ret {| ctx_id := i; ctx_browser := b |}.

Definition newPage (c : Context) : M Page :=
  driver (NewPage c) ;;;
  i <- get next_id ;;
  let p := {| page_id := i; context := c |} in
  modify (fun st => set_world (S i) (open_browsers st) (p :: open_pages st) st) ;;;
  ret p.

(** Closing a browser closes its contexts and their pages. *)
Definition browser_close (b : Browser) : M unit :=
  driver (BrowserClose b) ;;;
  modify (fun st =>
    set_world (next_id st)
      (filter (fun b' => negb (Nat.eqb b' b)) (open_browsers st))
      (filter (fun p => negb (Nat.eqb (ctx_browser (context p)) b))
              (open_pages st)) st).

(** ** Session manager *)

Definition ensureBrowser : M Page :=
  b0 <- get browser ;;
  b <- match b0 with
       | Some b => ret b
       | None => b <- launch ;; modify (set_browser (Some b)) ;;; ret b
       end ;;
  p0 <- get page ;;
  match p0 with
  | Some p => ret p
  | None =>
      c <- newContext b ;;
      p <- newPage c ;;
      modify (set_page (Some p)) ;;;
      ret p
  end.

(** [currentRefs.clear()] empties the map in place; nothing else holds a
    reference to it (the snapshot result carries a copy), so emptying is the
    same as storing an empty map. *)
Definition closeBrowser : M unit :=
  b0 <- get browser ;;
  match b0 with
  | Some b =>
      browser_close b ;;;
      modify (set_browser None) ;;;
      modify (set_page None) ;;;
      modify (set_currentRefs [])
  | None => ret tt
  end.

(** ** Snapshot capture *)

(** takeSnapshot(p, maxChars): the text is [String(result?.full ?? '')] when
    the page has _snapshotForAI, and else the string that ariaSnapshot() is
    typed to return; the table is parsed from the whole text, before the
    truncation. *)
Definition takeSnapshot (p : Page) (maxChars : option Z)
  : M (jsstring * bool) :=
  has <- get snapshotForAI ;;
  snapshot <- (if has
               then r <- driver (SnapshotForAI p) ;; ret (text_of r)
               else r <- driver (AriaSnapshot p) ;; ret (text_of r)) ;;
  modify (set_currentRefs (parseRefsFromSnapshot snapshot)) ;;;
  ret (truncate snapshot maxChars).

(** ** Action dispatcher *)

Inductive action := navigate | open | snapshot | act | read | close.
Inductive act_kind := click | type | press | hover | scroll | wait.
Inductive scroll_direction := up | down.

Record actRequest := {
  kind : act_kind;
  ref : option jsstring;
  text : option jsstring;
  key : option jsstring;
  direction : option scroll_direction;
  timeMs : option Z
}.

Record input := {
  action_of : action;
  url : option jsstring;
  maxChars : option Z;
  request : option actRequest
}.

(** The object handed to formatToolResult, one constructor per shape. *)
Inductive payload :=
| PError (error : jsstring)
| PLoaded (url title hint : jsstring)
| PSnapshot (url title snapshot : jsstring) (truncated : bool)
            (refCount : nat) (refs : RefMap) (hint : jsstring)
| PClicked (clicked hint : jsstring)
| PTyped (ref typed : jsstring)
| PPressed (pressed : jsstring)
| PHovered (hovered : jsstring)
| PScrolled (scrolled : scroll_direction)
| PWaited (waited : Z)
| PRead (url title content : jsstring)
| PClosed (message : jsstring).

Definition NAVIGATE_HINT : jsstring :=
  js "Page loaded. Call snapshot to see page structure and find elements to interact with.".
Definition OPEN_HINT : jsstring :=
  js "New tab opened. Call snapshot to see page structure and find elements to interact with.".
Definition SNAPSHOT_HINT : jsstring :=
  js "Use act with kind=" ++ q (js "click") ++ js " and ref=" ++ q (js "eN")
  ++ js " to click elements. Or navigate directly to a /url visible in the snapshot.".
Definition CLICK_HINT : jsstring :=
  js "Click successful. Call snapshot to see the updated page.".

Definition str (m : M (option jsstring)) : M jsstring :=
  v <- m ;; ret (text_of v).

Definition act_body (p : Page) (r : actRequest) : M payload :=
  match kind r with
  | click =>
      if negb (present (ref r)) then ret (PError (js "ref is required for click"))
      else
        refs <- get currentRefs ;;
        let locator := resolveRefToLocator refs p (text_of (ref r)) in
        driver (Click locator) ;;;
        swallow (driver (WaitForLoadState p 10000)) ;;;
        ret (PClicked (text_of (ref r)) CLICK_HINT)
  | type =>
      if negb (present (ref r)) then ret (PError (js "ref is required for type"))
      else if negb (present (text r))
      then ret (PError (js "text is required for type"))
      else
        refs <- get currentRefs ;;
        let locator := resolveRefToLocator refs p (text_of (ref r)) in
        driver (Fill locator (text_of (text r))) ;;;
        ret (PTyped (text_of (ref r)) (text_of (text r)))
  | press =>
      if negb (present (key r)) then ret (PError (js "key is required for press"))
      else
        driver (KeyboardPress p (text_of (key r))) ;;;
        swallow (driver (WaitForLoadState p 5000)) ;;;
        ret (PPressed (text_of (key r)))
  | hover =>
      if negb (present (ref r)) then ret (PError (js "ref is required for hover"))
      else
        refs <- get currentRefs ;;
        let locator := resolveRefToLocator refs p (text_of (ref r)) in
        driver (Hover locator) ;;;
        ret (PHovered (text_of (ref r)))
  | scroll =>
      let scrollDirection :=
        match direction r with Some d => d | None => down end in
      let amount :=
        match scrollDirection with down => 500%Z | up => (-500)%Z end in
      driver (MouseWheel p 0 amount) ;;;
      driver (WaitForTimeout p 500) ;;;
      ret (PScrolled scrollDirection)
  | wait =>
      let waitTime :=
        Z.min (match timeMs r with Some t => t | None => 2000%Z end) 10000 in
      driver (WaitForTimeout p waitTime) ;;;
      ret (PWaited waitTime)
  end.

(** The [try] block of browserTool.func.  The [default] branches of the two
    switches are unreachable for the enumerated actions and kinds. *)
Definition func_body (i : input) : M payload :=
  match action_of i with
  | navigate =>
      if negb (present (url i))
      then ret (PError (js "url is required for navigate action"))
      else
        p <- ensureBrowser ;;
        driver (Goto p (text_of (url i))) ;;;
        u <- str (driver (PageUrl p)) ;;
        t <- str (driver (PageTitle p)) ;;
        ret (PLoaded u t NAVIGATE_HINT)
  | open =>
      if negb (present (url i))
      then ret (PError (js "url is required for open action"))
      else
        currentPage <- ensureBrowser ;;
        let context := context currentPage in
        newPage <- newPage context ;;
        driver (Goto newPage (text_of (url i))) ;;;
        modify (set_page (Some newPage)) ;;;
        u <- str (driver (PageUrl newPage)) ;;
        t <- str (driver (PageTitle newPage)) ;;
        ret (PLoaded u t OPEN_HINT)
  | snapshot =>
      p <- ensureBrowser ;;
      swallow (driver (WaitForLoadState p 5000)) ;;;
      st <- takeSnapshot p (maxChars i) ;;
      u <- str (driver (PageUrl p)) ;;
      t <- str (driver (PageTitle p)) ;;
      refs <- get currentRefs ;;
      ret (PSnapshot u t (fst st) (snd st) (map_size refs) refs SNAPSHOT_HINT)
  | act =>
      match request i with
      | None => ret (PError (js "request is required for act action"))
      | Some r =>
          p <- ensureBrowser ;;
          act_body p r
      end
  | read =>
      p <- ensureBrowser ;;
      swallow (driver (WaitForLoadState p 5000)) ;;;
      content <- str (driver (Evaluate p)) ;;
      u <- str (driver (PageUrl p)) ;;
      t <- str (driver (PageTitle p)) ;;
      ret (PRead u t content)
  | close =>
      closeBrowser ;;;
      ret (PClosed (js "Browser closed"))
  end.

Definition ERROR_PREFIX : jsstring := js "[Browser (Playwright)] ".

(** browserTool.func: the [try] block under its [catch]. *)
Definition func (i : input) (st : state) : payload * state :=
  match func_body i st with
  | (Val r, st') => (r, st')
  | (Exn message, st') =>
      (PError (ERROR_PREFIX ++ message),
       add_log (js "[Browser (Playwright)] error: " ++ message) st')
  end.

(** The sequential runs of the tool: between two invocations the driver may
    be given any further answers. *)
Inductive reachable : state -> Prop :=
| reach_init : forall has_ai e, reachable (init has_ai e)
| reach_step : forall st i e,
    reachable st -> reachable (snd (func i (set_env e st))).

(** The module-state invariant: a page only with a browser, and an empty ref
    table without one. *)
Definition module_invariant (st : state) : Prop :=
  (page st <> None -> browser st <> None)
  /\ (browser st = None -> currentRefs st = []).

(** ** Targets in the words of the specification

    [l.first()] is [l.nth(0)]: the first of the matches of [l]. *)
Definition first_match (l : locator) : locator := Nth l (Finite 0).

(** The target of a stored entry as the specification words it: the role
    locator with an exact name when a name is stored, narrowed to the offset
    nth when nth is greater than zero and to the first match when nth is
    zero or absent. *)
Definition spec_target (p : Page) (e : RefData) : locator :=
  let l :=
    GetByRole p (role e)
      {| opt_name := name e;
         opt_exact := match name e with Some _ => Some true | None => None end
      |} in
  match nth e with
  | Some n => if is_positive n then Nth l n else first_match l
  | None => first_match l
  end.

(** ** The driver calls of one invocation *)

(** The answer of the driver to the call number [k] (from 0) made from the
    state [st]: every call consumes one scripted answer, and a driver whose
    script is exhausted returns undefined. *)
Definition answer_to (st : state) (k : nat) : response :=
  List.nth k (env st) (Returns None).

(** The calls recorded in [st'] after those of [st]. *)
Definition new_calls (st st' : state) : list call :=
  skipn (length (calls st)) (calls st').

(** The calls that capture the snapshot text. *)
Definition is_capture (c : call) : bool :=
  match c with
  | SnapshotForAI _ | AriaSnapshot _ => true
  | _ => false
  end.

Fixpoint capture_index (cs : list call) : option nat :=
  match cs with
  | [] => None
  | c :: cs' =>
      if is_capture c then Some 0 else option_map S (capture_index cs')
  end.

(** What the driver answered to the capture call made between [st] and
    [st']. *)
Definition captured (st st' : state) : option response :=
  option_map (answer_to st) (capture_index (new_calls st st')).

(** The driver answers within its types: [ariaSnapshot()], typed as a
    promise of a string, does not resolve to undefined.  The calls [cs] are
    answered in order by [e]. *)
Fixpoint typed_from (e : list response) (cs : list call) : bool :=
  match cs with
  | [] => true
  | c :: cs' =>
      match c, e with
      | AriaSnapshot _, Returns None :: _ => false
      | AriaSnapshot _, [] => false
      | _, _ => typed_from (tl e) cs'
      end
  end.

Definition typed_answers (st st' : state) : Prop :=
  typed_from (env st) (new_calls st st') = true.

(** The calls whose failure the code discards with [.catch(() => {})]: the
    waits for the network to be idle. *)
Definition swallowed (c : call) : bool :=
  match c with
  | WaitForLoadState _ _ => true
  | _ => false
  end.


(** ** Vocabulary of the statements *)

Fixpoint takeWhile (ok : N -> bool) (s : jsstring) : jsstring :=
  match s with
  | c :: s' => if ok c then c :: takeWhile ok s' else []
  | [] => []
  end.

Fixpoint dropWhile (ok : N -> bool) (s : jsstring) : jsstring :=
  match s with
  | c :: s' => if ok c then dropWhile ok s' else s
  | [] => []
  end.

Definition all_of (ok : N -> bool) (s : jsstring) : Prop :=
  forallb ok s = true.

(** The text of a group: [pre] followed by one or more characters of [a]. *)
Definition group_ok (pre : jsstring) (a : atom) (g : jsstring) : Prop :=
  exists run, g = pre ++ run /\ run <> [] /\ all_of (atom_ok a) run.

(** A marker [opening g closing] starts at offset [n] of the line. *)
Definition occurs (opening pre : jsstring) (a : atom) (closing : N)
           (line : jsstring) (n : nat) (g : jsstring) : Prop :=
  exists before after,
    line = before ++ opening ++ g ++ closing :: after
    /\ length before = n /\ group_ok pre a g.

Definition first_occurrence (opening pre : jsstring) (a : atom) (closing : N)
           (line : jsstring) (g : jsstring) : Prop :=
  exists n, occurs opening pre a closing line n g
    /\ forall n' g', occurs opening pre a closing line n' g' -> n <= n'.

Definition no_occurrence (opening pre : jsstring) (a : atom) (closing : N)
           (line : jsstring) : Prop :=
  forall n g, ~ occurs opening pre a closing line n g.

(** [ref=e<digits>] in brackets, the leftmost one of the line. *)
Definition first_ref_marker : jsstring -> jsstring -> Prop :=
  first_occurrence (js "[ref=") (js "e") Digit 93.
Definition no_ref_marker : jsstring -> Prop :=
  no_occurrence (js "[ref=") (js "e") Digit 93.

(** The line contains a marker [ref=r] in brackets, r a ref id. *)
Definition contains_ref_marker (line r : jsstring) : Prop :=
  exists n, occurs (js "[ref=") (js "e") Digit 93 line n r.

(** A line of a text holds no line feed. *)
Definition no_line_feed (l : jsstring) : Prop := ~ In LF l.

(** A ref id: the letter e followed by one or more digits. *)
Definition is_ref_id : jsstring -> Prop := group_ok (js "e") Digit.

(** The leftmost double-quoted substring: a quote, one or more characters
    other than a quote, a quote. *)
Definition first_quoted : jsstring -> jsstring -> Prop :=
  first_occurrence [DQUOTE] [] (NotChr DQUOTE) DQUOTE.
Definition no_quoted : jsstring -> Prop :=
  no_occurrence [DQUOTE] [] (NotChr DQUOTE) DQUOTE.

(** [nth=<digits>] in brackets, the leftmost one of the line. *)
Definition first_nth_marker : jsstring -> jsstring -> Prop :=
  first_occurrence (js "[nth=") [] Digit 93.
Definition no_nth_marker : jsstring -> Prop :=
  no_occurrence (js "[nth=") [] Digit 93.

(** The word that follows the bullet of the line: indentation, a dash,
    optional blanks, then the whole run of word characters. *)
Definition bullet_word (line w : jsstring) : Prop :=
  exists indent blanks rest,
    line = indent ++ 45%N :: blanks ++ w ++ rest
    /\ all_of is_space indent /\ all_of is_space blanks
    /\ w <> [] /\ all_of is_word w
    /\ match rest with c :: _ => is_word c = false | [] => True end.

Definition role_spec (line r : jsstring) : Prop :=
  bullet_word line r
  \/ ((forall w, ~ bullet_word line w) /\ r = js "generic").

Definition name_spec (line : jsstring) (n : option jsstring) : Prop :=
  match n with
  | Some x => first_quoted line x
  | None => no_quoted line
  end.

(** The number written by a string of decimal digits. *)
Fixpoint decimal (ds : list N) : N :=
  match ds with
  | [] => 0
  | d :: ds' => ((d - 48) * 10 ^ N.of_nat (length ds') + decimal ds')%N
  end.

Definition nth_spec (line : jsstring) (n : option jsnumber) : Prop :=
  match n with
  | Some k => exists ds, first_nth_marker line ds /\ k = to_double (decimal ds)
  | None => no_nth_marker line
  end.

(** The entry that the loop body stores for a line. *)
Definition line_entry (line : jsstring) : RefData :=
  {| role := match re_match role_re line with
             | Some r => r
             | None => js "generic"
             end;
     name := re_match name_re line;
     nth := match re_match nth_re line with
            | Some d => Some (parseInt10 d)
            | None => None
            end |}.

(** The limit of takeSnapshot: [maxChars ?? 50000]. *)
Definition limit_of (maxChars : option Z) : Z :=
  match maxChars with Some m => m | None => 50000%Z end.

(** Literal characters of a pattern. *)
Definition chars (l : jsstring) : list node :=
  map (fun c => Item (Chr c) Once) l.

(** Keys of a table: pairwise distinct ref ids. *)
Definition table_ok (refs : RefMap) : Prop :=
  NoDup (map_keys refs) /\ forall k, In k (map_keys refs) -> is_ref_id k.

(** Names stored in a table are never the empty string. *)
Definition names_ok (refs : RefMap) : Prop :=
  forall k e, map_get refs k = Some e ->
    match name e with Some n => truthy n = true | None => True end.

(** The session invariant: the module invariant, the active page is an open
    page of the browser held, the browser held is open, object ids are
    fresh, and the ref table is the parse of some snapshot text. *)
Definition consistent (st : state) : Prop :=
  module_invariant st
  /\ (forall p, page st = Some p ->
        In p (open_pages st)
        /\ browser st = Some (ctx_browser (context p)))
  /\ (forall b, browser st = Some b -> In b (open_browsers st))
  /\ (forall p, In p (open_pages st) -> page_id p < next_id st)
  /\ (exists text, currentRefs st = parseRefsFromSnapshot text).

Definition active (st : state) : Prop :=
  consistent st /\ browser st <> None.

(** [np] is an open page of the browser held. *)
Definition opened (np : Page) (st : state) : Prop :=
  active st /\ In np (open_pages st)
  /\ browser st = Some (ctx_browser (context np)).

(** [triple P m Q E]: from a state in [P], the computation [m] ends in [Q]
    when it returns and in [E] when it throws. *)
Definition triple {A} (P : state -> Prop) (m : M A)
           (Q : A -> state -> Prop) (E : state -> Prop) : Prop :=
  forall st, P st ->
    match m st with
    | (Val a, st') => Q a st'
    | (Exn _, st') => E st'
    end.

(** Inputs used in the examples. *)
Definition page0 : Page :=
  {| page_id := 2; context := {| ctx_id := 1; ctx_browser := 0 |} |}.

Definition snapshot_input (mc : option Z) : input :=
  {| action_of := snapshot; url := None; maxChars := mc; request := None |}.

Definition url_input (a : action) (u : string) : input :=
  {| action_of := a; url := Some (js u); maxChars := None; request := None |}.

Definition click_without_ref : input :=
  {| action_of := act; url := None; maxChars := None;
     request := Some {| kind := click; ref := None; text := None;
                        key := None; direction := None; timeMs := None |} |}.

(** * The callers and the other tools *)

(** ** Tool registry (src/tools/registry.ts) *)

(** [parts.join(sep)]. *)
Fixpoint join (sep : jsstring) (parts : list jsstring) : jsstring :=
  match parts with
  | [] => []
  | [p] => p
  | p :: rest => p ++ sep ++ join sep rest
  end.

(** BROWSER_DESCRIPTION, the template text after [trim()], line by line. *)
Definition BROWSER_DESCRIPTION_LINES : list jsstring :=
    [ js "Control a web browser to navigate websites and extract information."
    ; []
    ; js "**NOTE: For simply reading a web page's content, prefer web_fetch which returns content directly in a single call. Use browser only for interactive tasks requiring JavaScript rendering, clicking, or form filling.**"
    ; []
    ; js "## When to Use"
    ; []
    ; js "- Accessing dynamic/JavaScript-rendered content that requires a real browser"
    ; js "- Multi-step web navigation (click links, fill search boxes)"
    ; js "- Interacting with SPAs or pages that require JavaScript to load content"
    ; js "- When web_fetch fails or returns incomplete content due to JS-dependent rendering"
    ; []
    ; js "## When NOT to Use"
    ; []
    ; js "- Reading static web pages or articles (use **web_fetch** instead - it is faster and returns content in a single call)"
    ; js "- Simple queries that web_search can already answer"
    ; js "- Structured financial data (use financial_search instead)"
    ; js "- SEC filings content (use read_filings instead)"
    ; js "- General knowledge questions"
    ; []
    ; js "## CRITICAL: Navigate Returns NO Content"
    ; []
    ; js "The `navigate` action only loads the page - it does NOT return page content."
    ; js "You MUST call `snapshot` after navigate to see what's on the page."
    ; []
    ; js "## CRITICAL: Use Visible URLs - Do NOT Guess"
    ; []
    ; js "When the snapshot shows a link with a URL (e.g., `/url: https://...`):"
    ; js "1. **Option A**: Click the link using its ref (e.g., act with kind=" ++ [DQUOTE] ++ js "click" ++ [DQUOTE] ++ js ", ref=" ++ [DQUOTE] ++ js "e22" ++ [DQUOTE] ++ js ")"
    ; js "2. **Option B**: Navigate directly to the URL shown in the snapshot"
    ; []
    ; js "**NEVER make up or guess URLs based on common patterns**. If you need to reach a page:"
    ; js "1. Take a snapshot"
    ; js "2. Find the link in the snapshot"
    ; js "3. Either click it OR navigate to its visible /url value"
    ; []
    ; js "Bad: Guessing https://company.com/news-events/press-releases"
    ; js "Good: Using the /url value you SEE in the snapshot"
    ; []
    ; js "## Available Actions"
    ; []
    ; js "- **navigate** - Navigate to a URL in the current tab (returns only url/title, no content)"
    ; js "- **open** - Open a URL in a NEW tab (use when starting a fresh browsing session)"
    ; js "- **snapshot** - See page structure with clickable refs (e.g., e1, e2, e3)"
    ; js "- **act** - Interact with elements using refs (click, type, press, scroll)"
    ; js "- **read** - Extract full text content from the page"
    ; js "- **close** - Free browser resources when done"
    ; []
    ; js "## Workflow (MUST FOLLOW)"
    ; []
    ; js "1. **navigate** or **open** - Load a URL (returns only url/title, no content)"
    ; js "2. **snapshot** - See page structure with clickable refs (e.g., e1, e2, e3)"
    ; js "3. **act** - Interact with elements using refs:"
    ; js "   - kind=" ++ [DQUOTE] ++ js "click" ++ [DQUOTE] ++ js ", ref=" ++ [DQUOTE] ++ js "e5" ++ [DQUOTE] ++ js " - Click a link/button"
    ; js "   - kind=" ++ [DQUOTE] ++ js "type" ++ [DQUOTE] ++ js ", ref=" ++ [DQUOTE] ++ js "e3" ++ [DQUOTE] ++ js ", text=" ++ [DQUOTE] ++ js "search query" ++ [DQUOTE] ++ js " - Type in an input"
    ; js "   - kind=" ++ [DQUOTE] ++ js "press" ++ [DQUOTE] ++ js ", key=" ++ [DQUOTE] ++ js "Enter" ++ [DQUOTE] ++ js " - Press a key"
    ; js "   - kind=" ++ [DQUOTE] ++ js "scroll" ++ [DQUOTE] ++ js ", direction=" ++ [DQUOTE] ++ js "down" ++ [DQUOTE] ++ js " - Scroll the page"
    ; js "4. **snapshot** again - See updated page after interaction"
    ; js "5. **Repeat steps 3-4** until you find the content you need"
    ; js "6. **read** - Extract full text content from the page"
    ; js "7. **close** - Free browser resources when done"
    ; []
    ; js "## Snapshot Format"
    ; []
    ; js "The snapshot returns an AI-optimized accessibility tree with refs:"
    ; js "- navigation [ref=e1]:"
    ; js "  - link " ++ [DQUOTE] ++ js "Home" ++ [DQUOTE] ++ js " [ref=e2]"
    ; js "  - link " ++ [DQUOTE] ++ js "Investors" ++ [DQUOTE] ++ js " [ref=e3]"
    ; js "  - link " ++ [DQUOTE] ++ js "Press Releases" ++ [DQUOTE] ++ js " [ref=e4]"
    ; js "- main:"
    ; js "  - heading " ++ [DQUOTE] ++ js "Welcome to Acme Corp" ++ [DQUOTE] ++ js " [ref=e5]"
    ; js "  - paragraph: Latest news and updates"
    ; js "  - link " ++ [DQUOTE] ++ js "Q4 2024 Earnings" ++ [DQUOTE] ++ js " [ref=e6]"
    ; js "  - link " ++ [DQUOTE] ++ js "View All Press Releases" ++ [DQUOTE] ++ js " [ref=e7]"
    ; []
    ; js "## Act Action Examples"
    ; []
    ; js "To click a link with ref=e4:"
    ; js "  action=" ++ [DQUOTE] ++ js "act" ++ [DQUOTE] ++ js ", request with kind=" ++ [DQUOTE] ++ js "click" ++ [DQUOTE] ++ js " and ref=" ++ [DQUOTE] ++ js "e4" ++ [DQUOTE]
    ; []
    ; js "To type in a search box with ref=e10:"
    ; js "  action=" ++ [DQUOTE] ++ js "act" ++ [DQUOTE] ++ js ", request with kind=" ++ [DQUOTE] ++ js "type" ++ [DQUOTE] ++ js ", ref=" ++ [DQUOTE] ++ js "e10" ++ [DQUOTE] ++ js ", text=" ++ [DQUOTE] ++ js "earnings" ++ [DQUOTE]
    ; []
    ; js "To press Enter:"
    ; js "  action=" ++ [DQUOTE] ++ js "act" ++ [DQUOTE] ++ js ", request with kind=" ++ [DQUOTE] ++ js "press" ++ [DQUOTE] ++ js " and key=" ++ [DQUOTE] ++ js "Enter" ++ [DQUOTE]
    ; []
    ; js "## Example: Finding a Press Release"
    ; []
    ; js "1. navigate to https://investors.company.com"
    ; js "2. snapshot - see links like " ++ [DQUOTE] ++ js "Press Releases" ++ [DQUOTE] ++ js " [ref=e4]"
    ; js "3. act with kind=" ++ [DQUOTE] ++ js "click" ++ [DQUOTE] ++ js ", ref=" ++ [DQUOTE] ++ js "e4" ++ [DQUOTE] ++ js " - click Press Releases link"
    ; js "4. snapshot - see list of press releases"
    ; js "5. act with kind=" ++ [DQUOTE] ++ js "click" ++ [DQUOTE] ++ js ", ref=" ++ [DQUOTE] ++ js "e12" ++ [DQUOTE] ++ js " - click specific press release"
    ; js "6. read - extract the full press release text"
    ; []
    ; js "## Usage Notes"
    ; []
    ; js "- Always call snapshot after navigate/open - they return only url/title, no content"
    ; js "- Use **open** to start a fresh tab; use **navigate** to go to a URL within the current tab"
    ; js "- After clicking, always call snapshot again to see the new page"
    ; js "- The browser persists across calls - no need to re-navigate to the same URL"
    ; js "- Use read for bulk text extraction once you've navigated to the right page"
    ; js "- Close the browser when done to free system resources" ].

Definition BROWSER_DESCRIPTION : jsstring :=
  join [LF] BROWSER_DESCRIPTION_LINES.


(** The tool instances are objects built in other modules; here they are
    named.  The three finance tools are created for a model. *)
Inductive tool :=
| financialSearch (model : jsstring)
| financialMetrics (model : jsstring)
| readFilings (model : jsstring)
| webFetchTool
| browserTool
| readFileTool
| writeFileTool
| editFileTool
| exaSearch
| perplexitySearch
| tavilySearch
| skillTool.

Record RegisteredTool := {
  rt_name : jsstring;
  rt_tool : tool;
  rt_description : jsstring
}.

(** The description constants imported from the other tool modules. *)
Record descriptions := {
  FINANCIAL_SEARCH_DESCRIPTION : jsstring;
  FINANCIAL_METRICS_DESCRIPTION : jsstring;
  READ_FILINGS_DESCRIPTION : jsstring;
  WEB_FETCH_DESCRIPTION : jsstring;
  READ_FILE_DESCRIPTION : jsstring;
  WRITE_FILE_DESCRIPTION : jsstring;
  EDIT_FILE_DESCRIPTION : jsstring;
  WEB_SEARCH_DESCRIPTION : jsstring;
  SKILL_TOOL_DESCRIPTION : jsstring
}.

(** The three variables of process.env that the registry reads. *)
Record process_env := {
  EXASEARCH_API_KEY : option jsstring;
  PERPLEXITY_API_KEY : option jsstring;
  TAVILY_API_KEY : option jsstring
}.

Section Registry.
Variable D : descriptions.
Variable Skill : Type.

(** [getToolRegistry(model)], given process.env and the result of
    discoverSkills(). *)
Definition getToolRegistry (env : process_env) (availableSkills : list Skill)
           (model : jsstring) : list RegisteredTool :=
  let tools :=
    [ {| rt_name := js "financial_search"; rt_tool := financialSearch model;
         rt_description := FINANCIAL_SEARCH_DESCRIPTION D |};
      {| rt_name := js "financial_metrics"; rt_tool := financialMetrics model;
         rt_description := FINANCIAL_METRICS_DESCRIPTION D |};
      {| rt_name := js "read_filings"; rt_tool := readFilings model;
         rt_description := READ_FILINGS_DESCRIPTION D |};
      {| rt_name := js "web_fetch"; rt_tool := webFetchTool;
         rt_description := WEB_FETCH_DESCRIPTION D |};
      {| rt_name := js "browser"; rt_tool := browserTool;
         rt_description := BROWSER_DESCRIPTION |};
      {| rt_name := js "read_file"; rt_tool := readFileTool;
         rt_description := READ_FILE_DESCRIPTION D |};
      {| rt_name := js "write_file"; rt_tool := writeFileTool;
         rt_description := WRITE_FILE_DESCRIPTION D |};
      {| rt_name := js "edit_file"; rt_tool := editFileTool;
         rt_description := EDIT_FILE_DESCRIPTION D |} ] in
  let tools :=
    if present (EXASEARCH_API_KEY env) then
      tools ++ [ {| rt_name := js "web_search"; rt_tool := exaSearch;
                    rt_description := WEB_SEARCH_DESCRIPTION D |} ]
    else if present (PERPLEXITY_API_KEY env) then
      tools ++ [ {| rt_name := js "web_search"; rt_tool := perplexitySearch;
                    rt_description := WEB_SEARCH_DESCRIPTION D |} ]
    else if present (TAVILY_API_KEY env) then
      tools ++ [ {| rt_name := js "web_search"; rt_tool := tavilySearch;
                    rt_description := WEB_SEARCH_DESCRIPTION D |} ]
    else tools in
  if (0 <? length availableSkills)%nat then
    tools ++ [ {| rt_name := js "skill"; rt_tool := skillTool;
                  rt_description := SKILL_TOOL_DESCRIPTION D |} ]
  else tools.

Definition getTools (env : process_env) (availableSkills : list Skill)
           (model : jsstring) : list tool :=
  map rt_tool (getToolRegistry env availableSkills model).

Definition buildToolDescriptions (env : process_env)
           (availableSkills : list Skill) (model : jsstring) : jsstring :=
  join [LF; LF]
       (map (fun t => js "### " ++ rt_name t ++ [LF; LF] ++ rt_description t)
            (getToolRegistry env availableSkills model)).
End Registry.

Definition web_search_provider (env : process_env) : option tool :=
  if present (EXASEARCH_API_KEY env) then Some exaSearch
  else if present (PERPLEXITY_API_KEY env) then Some perplexitySearch
  else if present (TAVILY_API_KEY env) then Some tavilySearch
  else None.

(** ** Financial Datasets API client (src/tools/finance/api.ts) *)

(** Values of the language as far as the client handles them.  Numbers are
    only passed along and tested for truth, so their type is a parameter.
    An object is the list of its own enumerable properties in the order of
    Object.entries; its prototype is not modelled. *)
#[local] Unset Elimination Schemes.
Inductive jsvalue (number : Type) :=
| JUndefined
| JNull
| JBool (b : bool)
| JNumber (n : number)
| JString (s : jsstring)
| JArray (items : list (jsvalue number))
| JObject (entries : list (jsstring * jsvalue number)).
#[local] Set Elimination Schemes.
Arguments JUndefined {number}.
Arguments JNull {number}.
Arguments JBool {number} b.
Arguments JString {number} s.

(** [new Set(fields).has(key)]. *)
Definition has (fields : list jsstring) (key : jsstring) : bool :=
  existsb (jsstring_eqb key) fields.

Definition PROTO : jsstring := js "__proto__".

Section Values.
Variable number : Type.

(** The loop of [walk] over Object.entries(record), [f] being [walk]
    itself.  Assigning the keys of Object.entries, in their order, to a
    fresh object keeps their order.  The assignment [cleaned[key] = v] for
    the key __proto__ sets the prototype of [cleaned] and creates no own
    property. *)
Section Clean.
Variable f : jsvalue number -> jsvalue number.
Variable fields : list jsstring.

Fixpoint clean (es : list (jsstring * jsvalue number))
  : list (jsstring * jsvalue number) :=
  match es with
  | [] => []
  | (key, child) :: es' =>
      if has fields key then clean es'
      else if jsstring_eqb key PROTO then clean es'
      else (key, f child) :: clean es'
  end.
End Clean.

(** The inner function [walk] of stripFieldsDeep. *)
Fixpoint walk (fields : list jsstring) (node : jsvalue number)
  : jsvalue number :=
  match node with
  | JArray items => JArray (map (walk fields) items)
  | JObject entries => JObject (clean (walk fields) fields entries)
  | _ => node
  end.

Definition stripFieldsDeep (v : jsvalue number) (fields : list jsstring)
  : jsvalue number :=
  walk fields v.

(** Every own key of the value, at every depth, satisfies [ok]. *)
Fixpoint every_key (ok : jsstring -> bool) (v : jsvalue number) : bool :=
  match v with
  | JArray items => forallb (every_key ok) items
  | JObject entries =>
      forallb (fun kv => ok (fst kv) && every_key ok (snd kv)) entries
  | _ => true
  end.

(** The keys that stripping keeps. *)
Definition kept (fields : list jsstring) (key : jsstring) : bool :=
  negb (has fields key) && negb (jsstring_eqb key PROTO).
End Values.

Section ValueInd.
Variable number : Type.
Variable P : jsvalue number -> Prop.
Hypothesis P_undefined : P JUndefined.
Hypothesis P_null : P JNull.
Hypothesis P_bool : forall b, P (JBool b).
Hypothesis P_number : forall n, P (JNumber n).
Hypothesis P_string : forall s, P (JString s).
Hypothesis P_array : forall items, Forall P items -> P (JArray items).
Hypothesis P_object :
  forall entries, Forall (fun kv => P (snd kv)) entries -> P (JObject entries).

Fixpoint jsvalue_nested_ind (v : jsvalue number) : P v :=
  match v with
  | JUndefined => P_undefined
  | JNull => P_null
  | JBool b => P_bool b
  | JNumber n => P_number n
  | JString s => P_string s
  | JArray items =>
      P_array
        ((fix all (l : list (jsvalue number)) : Forall P l :=
            match l with
            | [] => Forall_nil _
            | x :: l' => Forall_cons _ (jsvalue_nested_ind x) (all l')
            end) items)
  | JObject entries =>
      P_object
        ((fix all (l : list (jsstring * jsvalue number))
            : Forall (fun kv => P (snd kv)) l :=
            match l with
            | [] => Forall_nil _
            | kv :: l' =>
                Forall_cons _ (jsvalue_nested_ind (snd kv)) (all l')
            end) entries)
  end.
End ValueInd.

(** *** callApi *)

Definition BASE_URL : jsstring := js "https://api.financialdatasets.ai".
Definition EM_DASH : N := 8212.
Definition API_PREFIX : jsstring := js "[Financial Datasets API] ".

Section CallApi.
Variable number : Type.

(** A value of the params record: string, number, string[] or undefined. *)
Inductive param_value :=
| PString (s : jsstring)
| PNumber (n : number)
| PStrings (l : list jsstring)
| PUndefined.

(** The params record as the list of Object.entries. *)
Definition params := list (jsstring * param_value).

Record ApiResponse := { data : jsvalue number; response_url : jsstring }.

(** What [fetch] resolves to: [json] is [None] when the body does not
    parse. *)
Record Response := {
  ok : bool;
  status : number;
  statusText : jsstring;
  json : option (jsvalue number)
}.

Inductive fetch_outcome :=
| FetchThrows (message : jsstring)
| FetchReturns (r : Response).

(** The surroundings of one call: the entry of the local cache for the
    request, the API key of process.env, the outcome of the request. *)
Record api_env := {
  cached : option ApiResponse;
  FINANCIAL_DATASETS_API_KEY : option jsstring;
  fetched : fetch_outcome
}.

(** What the call does to its collaborators, in order. *)
Inductive api_event :=
| ReadCache (endpoint : jsstring) (ps : params)
| LogWarn (message : jsstring)
| Fetch (url : jsstring) (x_api_key : jsstring)
| LogError (message : jsstring)
| WriteCache (endpoint : jsstring) (ps : params) (d : jsvalue number)
             (url : jsstring).

(** Collaborators of other modules and of the platform: describeRequest of
    utils/cache, [String(n)] on a number, and [url.toString()] for the URL
    built from a base and the appended search parameters. *)
Variable describeRequest : jsstring -> params -> jsstring.
Variable String_of_number : number -> jsstring.
Variable url_toString : jsstring -> list (jsstring * jsstring) -> jsstring.

(** The loop that appends the params to url.searchParams. *)
Definition searchParams (ps : params) : list (jsstring * jsstring) :=
  flat_map
    (fun kv =>
       match snd kv with
       | PUndefined => []
       | PStrings l => map (fun v => (fst kv, v)) l
       | PString s => [(fst kv, s)]
       | PNumber n => [(fst kv, String_of_number n)]
       end) ps.

Definition callApi (e : api_env) (endpoint : jsstring) (ps : params)
           (cacheable : bool) : list api_event * result ApiResponse :=
  let label := describeRequest endpoint ps in
  let t0 := if cacheable then [ReadCache endpoint ps] else [] in
  match (if cacheable then cached e else None) with
  | Some c => (t0, Val c)
  | None =>
      let key := FINANCIAL_DATASETS_API_KEY e in
      let t1 :=
        if present key then t0
        else t0 ++ [LogWarn (API_PREFIX ++ js "call without key: " ++ label)]
      in
      let url := url_toString (BASE_URL ++ endpoint) (searchParams ps) in
      let t2 :=
        t1 ++ [Fetch url (if present key then text_of key else [])] in
      match fetched e with
      | FetchThrows message =>
          (t2 ++ [LogError (API_PREFIX ++ js "network error: " ++ label
                            ++ js " " ++ [EM_DASH] ++ js " " ++ message)],
           Exn (API_PREFIX ++ js "request failed for " ++ label ++ js ": "
                ++ message))
      | FetchReturns response =>
          if negb (ok response) then
            let detail :=
              String_of_number (status response) ++ js " "
              ++ statusText response in
            (t2 ++ [LogError (API_PREFIX ++ js "error: " ++ label
                              ++ js " " ++ [EM_DASH] ++ js " " ++ detail)],
             Exn (API_PREFIX ++ js "request failed: " ++ detail))
          else
            match json response with
            | None =>
                let detail :=
                  js "invalid JSON (" ++ String_of_number (status response)
                  ++ js " " ++ statusText response ++ js ")" in
                (t2 ++ [LogError (API_PREFIX ++ js "parse error: " ++ label
                                  ++ js " " ++ [EM_DASH] ++ js " "
                                  ++ detail)],
                 Exn (API_PREFIX ++ js "request failed: " ++ detail))
            | Some d =>
                (if cacheable then t2 ++ [WriteCache endpoint ps d url]
                 else t2,
                 Val {| data := d; response_url := url |})
            end
      end
  end.

(** Kinds of events, for the statements. *)
Definition is_cache_event (ev : api_event) : bool :=
  match ev with
  | ReadCache _ _ | WriteCache _ _ _ _ => true
  | _ => false
  end.

Definition is_fetch (ev : api_event) : bool :=
  match ev with Fetch _ _ => true | _ => false end.

Definition is_write (ev : api_event) : bool :=
  match ev with WriteCache _ _ _ _ => true | _ => false end.
End CallApi.
Arguments PString {number} s.
Arguments PStrings {number} l.
Arguments PUndefined {number}.
Arguments FetchThrows {number} message.
Arguments LogWarn {number} message.
Arguments Fetch {number} url x_api_key.
Arguments LogError {number} message.

(** *** get_segmented_revenues (src/tools/finance/segments.ts) *)

Definition REDUNDANT_FINANCIAL_FIELDS : list jsstring :=
  [js "accession_number"; js "currency"; js "period"].

Inductive reporting_period := annual | quarterly.

Section Segments.
Variable number : Type.
Variable number_truthy : number -> bool.
Variable describeRequest : jsstring -> params number -> jsstring.
Variable String_of_number : number -> jsstring.
Variable url_toString : jsstring -> list (jsstring * jsstring) -> jsstring.
(** The message of the TypeError raised by a property read on null or
    undefined; its wording belongs to the engine. *)
Variable TYPE_ERROR_MESSAGE : jsstring.

Record SegmentedRevenuesInput := {
  ticker : jsstring;
  period : reporting_period;
  limit : number
}.

(** [v.key] for a key that no prototype defines. *)
Definition get_property (v : jsvalue number) (key : jsstring)
  : result (jsvalue number) :=
  match v with
  | JUndefined | JNull => Exn TYPE_ERROR_MESSAGE
  | JObject entries =>
      Val (match find (fun kv => jsstring_eqb (fst kv) key) entries with
           | Some kv => snd kv
           | None => JUndefined
           end)
  | _ => Val JUndefined
  end.

Definition value_truthy (v : jsvalue number) : bool :=
  match v with
  | JUndefined | JNull => false
  | JBool b => b
  | JNumber n => number_truthy n
  | JString s => truthy s
  | JArray _ | JObject _ => true
  end.

(** The tool's func; the result is the pair handed to formatToolResult. *)
Definition getSegmentedRevenues (e : api_env number)
           (input : SegmentedRevenuesInput)
  : list (api_event number) * result (jsvalue number * list jsstring) :=
  let ps :=
    [ (js "ticker", PString (ticker input));
      (js "period",
       PString
               (match period input with
                | annual => js "annual"
                | quarterly => js "quarterly"
                end));
      (js "limit", PNumber (limit input)) ] in
  match callApi describeRequest String_of_number url_toString e
                (js "/financials/segmented-revenues/") ps false with
  | (t, Exn m) => (t, Exn m)
  | (t, Val r) =>
      match get_property (data r) (js "segmented_revenues") with
      | Exn m => (t, Exn m)
      | Val sr =>
          (t, Val (stripFieldsDeep (if value_truthy sr then sr
                                    else JObject [])
                                   REDUNDANT_FINANCIAL_FIELDS,
                   [response_url r]))
      end
  end.
End Segments.

(** States and requests used in the examples. *)
Definition active_state : state :=
  snd (func (url_input navigate "https://a.test") (init true [])).

Definition act_input (r : actRequest) : input :=
  {| action_of := act; url := None; maxChars := None; request := Some r |}.

Definition act_request (k : act_kind) (r t : option jsstring)
           (ms : option Z) : actRequest :=
  {| kind := k; ref := r; text := t; key := None; direction := None;
     timeMs := ms |}.

Definition is_creation (c : call) : bool :=
  match c with
  | Launch | NewContext _ | NewPage _ => true
  | _ => false
  end.

Definition snapshot_state : state :=
  snd (func (snapshot_input None)
            (init true [Returns None; Returns None; Returns None;
                        Returns None;
                        Returns (Some (js "- link " ++ q (js "Docs")
                                       ++ js " [ref=e1]"))])).

(** A snapshot of two buttons of the same name, numbered 0 and 1. *)
Definition two_buttons : jsstring :=
  js "- button " ++ q (js "Go") ++ js " [ref=e1] [nth=0]" ++ [LF]
  ++ js "- button " ++ q (js "Go") ++ js " [ref=e2] [nth=1]".

Definition two_buttons_state : state :=
  snd (func (snapshot_input None)
            (set_env [Returns None; Returns None; Returns None; Returns None;
                      Returns (Some two_buttons)]
                     (init true []))).

Definition read_input : input :=
  {| action_of := read; url := None; maxChars := None; request := None |}.

Definition close_input : input :=
  {| action_of := close; url := None; maxChars := None; request := None |}.

Definition sample_api_env : api_env Z :=
  {| cached := None; FINANCIAL_DATASETS_API_KEY := None;
     fetched :=
       FetchReturns
         {| ok := true; status := 200%Z; statusText := js "OK";
            json := Some (JObject
                            [(js "segmented_revenues",
                              JArray [JObject [(js "ticker", JString (js "AAPL"));
                                               (js "period", JString (js "annual"));
                                               (js "items", JArray [])]])]) |} |}.

(** * Properties *)

(** ** Strings *)

Lemma takeWhile_dropWhile (ok : N -> bool) (s : jsstring) :
  takeWhile ok s ++ dropWhile ok s = s.
Proof.
  induction s as [|c s IH]; simpl; [reflexivity|].
  destruct (ok c); simpl; [now rewrite IH | reflexivity].
Qed.

Lemma takeWhile_all (ok : N -> bool) (s : jsstring) :
  all_of ok (takeWhile ok s).
Proof.
  unfold all_of. induction s as [|c s IH]; simpl; [reflexivity|].
  destruct (ok c) eqn:E; simpl; [now rewrite E | reflexivity].
Qed.

Lemma dropWhile_head (ok : N -> bool) (s : jsstring) :
  match dropWhile ok s with c :: _ => ok c = false | [] => True end.
Proof.
  induction s as [|c s IH]; simpl; [exact I|].
  destruct (ok c) eqn:E; [exact IH | exact E].
Qed.

Lemma span_unique (ok : N -> bool) (a b : jsstring) :
  all_of ok a ->
  match b with c :: _ => ok c = false | [] => True end ->
  takeWhile ok (a ++ b) = a /\ dropWhile ok (a ++ b) = b.
Proof.
  unfold all_of. induction a as [|c a IH]; simpl; intros Ha Hb.
  - destruct b as [|c b]; simpl; [auto|]. now rewrite Hb.
  - apply andb_true_iff in Ha. destruct Ha as [Hc Ha]. rewrite Hc.
    destruct (IH Ha Hb) as [-> ->]. auto.
Qed.

Lemma firstn_app_exact (a b : jsstring) :
  firstn (length (a ++ b) - length b) (a ++ b) = a.
Proof.
  rewrite length_app.
  replace (length a + length b - length b) with (length a) by lia.
  rewrite firstn_app, Nat.sub_diag, firstn_all. simpl. apply app_nil_r.
Qed.

Lemma split_app_sep (sep : N) (a b : jsstring) :
  split sep (a ++ sep :: b) = split sep a ++ split sep b.
Proof.
  induction a as [|c a IH]; cbn [app split].
  - now rewrite N.eqb_refl.
  - destruct (N.eqb c sep); [now rewrite IH|].
    rewrite IH. destruct (split sep a) as [|l ls] eqn:E.
    + exfalso. destruct a as [|c' a']; cbn in E; [discriminate|].
      destruct (N.eqb c' sep); [discriminate|].
      destruct (split sep a'); discriminate.
    + reflexivity.
Qed.

Lemma split_no_sep (sep : N) (l : jsstring) :
  ~ In sep l -> split sep l = [l].
Proof.
  induction l as [|c l IH]; intros H; cbn [split].
  - reflexivity.
  - destruct (N.eqb_spec c sep) as [->|Hne].
    + exfalso. apply H. now left.
    + rewrite IH by (intros Hin; apply H; now right). reflexivity.
Qed.

(** The lines of a text written as lines joined by line feeds are those
    lines. *)
Lemma split_join (lines : list jsstring) :
  lines <> [] -> Forall no_line_feed lines ->
  split LF (join [LF] lines) = lines.
Proof.
  induction lines as [|l lines IH]; intros Hne Hall; [contradiction|].
  inversion Hall as [|? ? Hl Hrest]; subst.
  destruct lines as [|l' lines].
  - cbn [join]. now apply split_no_sep.
  - change (join [LF] (l :: l' :: lines))
      with (l ++ LF :: join [LF] (l' :: lines)).
    rewrite split_app_sep, IH by (auto; discriminate).
    now rewrite split_no_sep.
Qed.

Lemma skipn_app_length (A : Type) (a b : list A) :
  skipn (length a) (a ++ b) = b.
Proof. induction a as [|x a IH]; [reflexivity | exact IH]. Qed.

(** ** The backtracking matcher *)

Lemma star_reject (R : Type) (ok : N -> bool) (k : jsstring -> option R)
      (s : jsstring) :
  (forall c s', ok c = true -> k (c :: s') = None) ->
  star ok k s = k (dropWhile ok s).
Proof.
  intros Hk. induction s as [|c s IH]; simpl; [reflexivity|].
  destruct (ok c) eqn:E; [|reflexivity].
  rewrite IH. destruct (k (dropWhile ok s)); [reflexivity|].
  now apply Hk.
Qed.

Lemma star_total (R : Type) (ok : N -> bool) (k : jsstring -> option R)
      (s : jsstring) :
  (forall t, k t <> None) ->
  star ok k s = k (dropWhile ok s).
Proof.
  intros Hk. induction s as [|c s IH]; simpl; [reflexivity|].
  destruct (ok c) eqn:E; [|reflexivity].
  rewrite IH. destruct (k (dropWhile ok s)) eqn:K; [reflexivity|].
  now apply Hk in K.
Qed.

Lemma exec_chars (l : jsstring) (r : list node) (op cap s g : jsstring) :
  exec (chars l ++ r) op cap s = Some g
  <-> exists s', s = l ++ s' /\ exec r op cap s' = Some g.
Proof.
  revert s. induction l as [|c l IH]; intros s; simpl.
  - split; [intros H; now exists s | intros (s' & -> & H); exact H].
  - destruct s as [|d s].
    + split; [discriminate | intros (s' & E & _); discriminate].
    + destruct (N.eqb_spec d c) as [->|Hne].
      * rewrite IH. split.
        -- intros (s' & -> & H). now exists s'.
        -- intros (s' & E & H). injection E as ->. now exists s'.
      * split; [discriminate|].
        intros (s' & E & _). injection E as E _. contradiction.
Qed.

(** A group [(pre a+)] followed by the character [closing], when no character
    of [a] is [closing]: the group takes [pre] and the whole run. *)
Lemma exec_group (pre : jsstring) (a : atom) (closing : N)
      (op cap s g : jsstring) :
  (forall c, atom_ok a c = true -> c <> closing) ->
  exec (GroupOpen :: chars pre
          ++ [Item a Plus; GroupClose; Item (Chr closing) Once]) op cap s
    = Some g
  <-> exists after, s = g ++ closing :: after /\ group_ok pre a g.
Proof.
  intros Hcl. cbn [exec]. rewrite exec_chars.
  assert (Hk : forall c s', atom_ok a c = true ->
             exec [GroupClose; Item (Chr closing) Once] s cap (c :: s') = None).
  { intros c s' Hc. cbn. destruct (N.eqb_spec c closing) as [->|]; [|reflexivity].
    now apply Hcl in Hc. }
  split.
  - intros (s1 & Es & H). cbn [exec] in H.
    destruct s1 as [|c s2]; [discriminate|].
    destruct (atom_ok a c) eqn:Hc; [|discriminate].
    rewrite (star_reject _ _ _ Hk) in H.
    pose proof (takeWhile_dropWhile (atom_ok a) s2) as Esp.
    pose proof (takeWhile_all (atom_ok a) s2) as Hall.
    destruct (dropWhile (atom_ok a) s2) as [|d after] eqn:Ed;
      [discriminate|].
    cbn in H. destruct (N.eqb_spec d closing) as [->|]; [|discriminate].
    injection H as H.
    assert (Es' : s = (pre ++ c :: takeWhile (atom_ok a) s2)
                        ++ closing :: after).
    { rewrite Es, <- Esp at 1. now rewrite <- app_assoc. }
    assert (Eg : g = pre ++ c :: takeWhile (atom_ok a) s2).
    { rewrite <- H. clear - Es'. subst s.
      apply (firstn_app_exact _ (closing :: after)). }
    exists after. split; [now rewrite Eg|].
    exists (c :: takeWhile (atom_ok a) s2). split; [exact Eg|].
    split; [discriminate|]. unfold all_of. simpl. rewrite Hc. exact Hall.
  - intros (after & Es & run & Eg & Hne & Hall).
    destruct run as [|c run]; [contradiction|].
    unfold all_of in Hall. simpl in Hall. apply andb_true_iff in Hall.
    destruct Hall as [Hc Hall].
    exists (c :: run ++ closing :: after). split.
    { rewrite Es, Eg, <- app_assoc. reflexivity. }
    cbn [exec]. rewrite Hc, (star_reject _ _ _ Hk).
    assert (Hhd : match closing :: after with
                  | d :: _ => atom_ok a d = false | [] => True end).
    { destruct (atom_ok a closing) eqn:Hd; [|reflexivity].
      now apply Hcl in Hd. }
    destruct (@span_unique (atom_ok a) run (closing :: after) Hall Hhd)
      as [_ ->].
    cbn. rewrite N.eqb_refl. f_equal.
    clear - Es. subst s.
    apply (firstn_app_exact _ (closing :: after)).
Qed.

Lemma search_some (r : list node) (s g : jsstring) :
  search r s = Some g
  <-> exists before suf,
        s = before ++ suf /\ exec r [] [] suf = Some g
        /\ forall before' suf',
             s = before' ++ suf' -> length before' < length before ->
             exec r [] [] suf' = None.
Proof.
  induction s as [|c s IH].
  - simpl. destruct (exec r [] [] []) eqn:E.
    + split.
      * intros H. exists [], []. repeat split; auto.
        -- now rewrite E.
        -- simpl. intros ? ? _ Hlt. lia.
      * intros (before & suf & Es & Hx & _).
        symmetry in Es. apply app_eq_nil in Es. destruct Es as [_ ->].
        congruence.
    + split; [discriminate|].
      intros (before & suf & Es & Hx & _).
      symmetry in Es. apply app_eq_nil in Es. destruct Es as [_ ->].
      congruence.
  - cbn [search]. destruct (exec r [] [] (c :: s)) eqn:E.
    + split.
      * intros H. exists [], (c :: s). repeat split; auto.
        -- now rewrite E.
        -- simpl. intros ? ? _ Hlt. lia.
      * intros (before & suf & Es & Hx & Hmin).
        destruct before as [|b before].
        -- simpl in Es. subst suf. congruence.
        -- specialize (Hmin [] (c :: s) eq_refl). simpl in Hmin.
           rewrite Hmin in E by lia. discriminate.
    + rewrite IH. split.
      * intros (before & suf & Es & Hx & Hmin).
        exists (c :: before), suf. repeat split; auto.
        -- simpl. now rewrite Es.
        -- intros before' suf' Es' Hlt.
           destruct before' as [|b before'].
           ++ simpl in Es'. now subst suf'.
           ++ simpl in Es'. injection Es' as _ Es'.
              apply (Hmin before' suf' Es'). simpl in Hlt. lia.
      * intros (before & suf & Es & Hx & Hmin).
        destruct before as [|b before].
        -- simpl in Es. subst suf. congruence.
        -- simpl in Es. injection Es as _ Es.
           exists before, suf. repeat split; auto.
           intros before' suf' Es' Hlt.
           apply (Hmin (c :: before') suf').
           ++ simpl. now rewrite Es'.
           ++ simpl. lia.
Qed.

Lemma search_none (r : list node) (s : jsstring) :
  search r s = None
  <-> forall before suf, s = before ++ suf -> exec r [] [] suf = None.
Proof.
  induction s as [|c s IH].
  - simpl. destruct (exec r [] [] []) eqn:E.
    + split; [discriminate|]. intros H. now rewrite (H [] []) in E.
    + split; [|reflexivity]. intros _ before suf Es.
      symmetry in Es. apply app_eq_nil in Es. now destruct Es as [_ ->].
  - cbn [search]. destruct (exec r [] [] (c :: s)) eqn:E.
    + split; [discriminate|]. intros H. now rewrite (H [] (c :: s)) in E.
    + rewrite IH. split.
      * intros H before suf Es. destruct before as [|b before].
        -- simpl in Es. now subst suf.
        -- simpl in Es. injection Es as _ Es. now apply (H before).
      * intros H before suf Es. apply (H (c :: before)).
        simpl. now rewrite Es.
Qed.

(** The shape shared by the ref, name and nth patterns. *)
Section Marker.
Variables (opening pre : jsstring) (a : atom) (closing : N).
Hypothesis closing_not_a : forall c, atom_ok a c = true -> c <> closing.

Let marker : list node :=
  chars opening ++ GroupOpen :: chars pre
    ++ [Item a Plus; GroupClose; Item (Chr closing) Once].

Lemma exec_marker (s g : jsstring) :
  exec marker [] [] s = Some g
  <-> exists after, s = opening ++ g ++ closing :: after
                    /\ group_ok pre a g.
Proof.
  unfold marker. rewrite exec_chars. split.
  - intros (s' & -> & H). apply exec_group in H; [|exact closing_not_a].
    destruct H as (after & -> & Hg). now exists after.
  - intros (after & -> & Hg). exists (g ++ closing :: after).
    split; [reflexivity|]. apply exec_group; [exact closing_not_a|].
    now exists after.
Qed.

Lemma occurs_exec (line : jsstring) (n : nat) (g : jsstring) :
  occurs opening pre a closing line n g
  <-> exists before suf, line = before ++ suf /\ length before = n
                         /\ exec marker [] [] suf = Some g.
Proof.
  unfold occurs. split.
  - intros (before & after & -> & Hn & Hg).
    exists before, (opening ++ g ++ closing :: after).
    repeat split; auto. apply exec_marker. now exists after.
  - intros (before & suf & -> & Hn & H). apply exec_marker in H.
    destruct H as (after & -> & Hg). now exists before, after.
Qed.

Lemma search_marker_some (line g : jsstring) :
  search marker line = Some g
  <-> first_occurrence opening pre a closing line g.
Proof.
  rewrite search_some. unfold first_occurrence. split.
  - intros (before & suf & Es & Hx & Hmin).
    exists (length before). split.
    + apply occurs_exec. now exists before, suf.
    + intros n' g' Ho. apply occurs_exec in Ho.
      destruct Ho as (before' & suf' & Es' & Hn' & Hx').
      destruct (Nat.le_gt_cases (length before) n') as [|Hlt]; [assumption|].
      rewrite (Hmin before' suf' Es') in Hx' by lia. discriminate.
  - intros (n & Ho & Hmin). apply occurs_exec in Ho.
    destruct Ho as (before & suf & Es & Hn & Hx).
    exists before, suf. repeat split; auto.
    intros before' suf' Es' Hlt.
    destruct (exec marker [] [] suf') as [g'|] eqn:Hx'; [|reflexivity].
    assert (Ho' : occurs opening pre a closing line (length before') g').
    { apply occurs_exec. now exists before', suf'. }
    apply Hmin in Ho'. lia.
Qed.

Lemma search_marker_none (line : jsstring) :
  search marker line = None <-> no_occurrence opening pre a closing line.
Proof.
  rewrite search_none. unfold no_occurrence. split.
  - intros H n g Ho. apply occurs_exec in Ho.
    destruct Ho as (before & suf & Es & _ & Hx).
    rewrite (H before suf Es) in Hx. discriminate.
  - intros H before suf Es.
    destruct (exec marker [] [] suf) as [g|] eqn:Hx; [|reflexivity].
    exfalso. apply (H (length before) g). apply occurs_exec.
    now exists before, suf.
Qed.
End Marker.

Lemma digit_not_bracket (c : N) : atom_ok Digit c = true -> c <> 93%N.
Proof.
  unfold atom_ok, is_digit. rewrite andb_true_iff, !N.leb_le. lia.
Qed.

Lemma notquote_not_quote (c : N) :
  atom_ok (NotChr DQUOTE) c = true -> c <> DQUOTE.
Proof.
  unfold atom_ok. rewrite negb_true_iff, N.eqb_neq. auto.
Qed.

Lemma ref_re_some (line r : jsstring) :
  re_match ref_re line = Some r <-> first_ref_marker line r.
Proof.
  exact (@search_marker_some (js "[ref=") (js "e") Digit 93 digit_not_bracket line r).
Qed.

Lemma ref_re_none (line : jsstring) :
  re_match ref_re line = None <-> no_ref_marker line.
Proof.
  exact (@search_marker_none (js "[ref=") (js "e") Digit 93 digit_not_bracket line).
Qed.

Lemma name_re_some (line x : jsstring) :
  re_match name_re line = Some x <-> first_quoted line x.
Proof.
  exact (@search_marker_some [DQUOTE] [] (NotChr DQUOTE) DQUOTE notquote_not_quote line x).
Qed.

Lemma name_re_none (line : jsstring) :
  re_match name_re line = None <-> no_quoted line.
Proof.
  exact (@search_marker_none [DQUOTE] [] (NotChr DQUOTE) DQUOTE notquote_not_quote line).
Qed.

Lemma nth_re_some (line ds : jsstring) :
  re_match nth_re line = Some ds <-> first_nth_marker line ds.
Proof.
  exact (@search_marker_some (js "[nth=") [] Digit 93 digit_not_bracket line ds).
Qed.

Lemma nth_re_none (line : jsstring) :
  re_match nth_re line = None <-> no_nth_marker line.
Proof.
  exact (@search_marker_none (js "[nth=") [] Digit 93 digit_not_bracket line).
Qed.

Ltac classes :=
  unfold is_space, is_word, is_digit in *;
  repeat rewrite ?orb_true_iff, ?andb_true_iff, ?N.leb_le, ?N.eqb_eq in *.

Lemma space_not_word (c : N) : is_space c = true -> is_word c = false.
Proof.
  intros Hs. destruct (is_word c) eqn:Hw; [|reflexivity].
  exfalso. classes. lia.
Qed.

Lemma space_not_dash (c : N) : is_space c = true -> c <> 45%N.
Proof. intros Hs. classes. lia. Qed.

Lemma role_re_some (line w : jsstring) :
  re_match role_re line = Some w <-> bullet_word line w.
Proof.
  unfold re_match, role_re. cbn [anchored body exec].
  set (k2 := exec [GroupOpen; Item Word Plus; GroupClose] [] []).
  set (k1 := fun s => match s with
                      | c :: s' => if atom_ok (Chr 45) c
                                   then star (atom_ok Space) k2 s' else None
                      | [] => None
                      end).
  change (star (atom_ok Space) k1 line = Some w <-> bullet_word line w).
  assert (Hk1 : forall c s', atom_ok Space c = true -> k1 (c :: s') = None).
  { intros c s' Hc. unfold k1. cbn [atom_ok].
    destruct (N.eqb_spec c 45) as [->|]; [|reflexivity].
    now apply space_not_dash in Hc. }
  assert (Hk2 : forall c s', atom_ok Space c = true -> k2 (c :: s') = None).
  { intros c s' Hc. unfold k2. cbn [exec atom_ok].
    now rewrite (space_not_word c Hc). }
  rewrite (star_reject _ _ _ Hk1). change (atom_ok Space) with is_space.
  split.
  - intros H.
    pose proof (takeWhile_dropWhile is_space line) as E1.
    pose proof (takeWhile_all is_space line) as A1.
    destruct (dropWhile is_space line) as [|d s2];
      [unfold k1 in H; discriminate|].
    unfold k1 in H. cbn [atom_ok] in H.
    change (atom_ok Space) with is_space in H.
    destruct (N.eqb_spec d 45) as [->|]; [|discriminate].
    rewrite (star_reject _ _ _ Hk2) in H.
    change (atom_ok Space) with is_space in H.
    pose proof (takeWhile_dropWhile is_space s2) as E2.
    pose proof (takeWhile_all is_space s2) as A2.
    destruct (dropWhile is_space s2) as [|c s4];
      [unfold k2 in H; cbn in H; discriminate|].
    unfold k2 in H. cbn [exec atom_ok] in H.
    change (atom_ok Word) with is_word in H.
    destruct (is_word c) eqn:Hc; [|discriminate].
    rewrite star_total in H by (intros t; cbn; discriminate).
    pose proof (takeWhile_dropWhile is_word s4) as E3.
    pose proof (takeWhile_all is_word s4) as A3.
    pose proof (dropWhile_head is_word s4) as H3.
    injection H as H.
    assert (Ew : w = c :: takeWhile is_word s4).
    { rewrite <- H.
      change (firstn (length (c :: s4) - length (dropWhile is_word s4))
                (c :: s4) = c :: takeWhile is_word s4).
      clear - E3. revert E3.
      generalize (takeWhile is_word s4) as x, (dropWhile is_word s4) as y.
      intros x y <-. apply (firstn_app_exact (c :: x) y). }
    exists (takeWhile is_space line), (takeWhile is_space s2),
      (dropWhile is_word s4).
    repeat split; auto.
    + rewrite Ew. simpl. rewrite E3, E2. now rewrite E1.
    + rewrite Ew. discriminate.
    + rewrite Ew. unfold all_of. simpl. now rewrite Hc.
  - intros (indent & blanks & rest & -> & A1 & A2 & Hne & Aw & Hrest).
    destruct w as [|c w]; [contradiction|].
    unfold all_of in Aw. simpl in Aw. apply andb_true_iff in Aw.
    destruct Aw as [Hc Aw].
    destruct (@span_unique is_space indent
                (45%N :: blanks ++ (c :: w) ++ rest) A1 eq_refl) as [_ ->].
    unfold k1. cbn [atom_ok]. rewrite N.eqb_refl.
    rewrite (star_reject _ _ _ Hk2). change (atom_ok Space) with is_space.
    assert (Hhd : match (c :: w) ++ rest with
                  | d :: _ => is_space d = false | [] => True end).
    { simpl. destruct (is_space c) eqn:Hs; [|reflexivity].
      apply space_not_word in Hs. congruence. }
    destruct (@span_unique is_space blanks ((c :: w) ++ rest) A2 Hhd)
      as [_ ->].
    unfold k2. cbn [exec app atom_ok]. rewrite Hc.
    change (atom_ok Word) with is_word.
    rewrite star_total by (intros t; cbn; discriminate).
    destruct (@span_unique is_word w rest Aw Hrest) as [_ ->].
    cbn [exec]. f_equal.
    apply (firstn_app_exact (c :: w) rest).
Qed.

Lemma role_re_none (line : jsstring) :
  re_match role_re line = None <-> forall w, ~ bullet_word line w.
Proof.
  split.
  - intros H w Hw. apply role_re_some in Hw. congruence.
  - intros H. destruct (re_match role_re line) as [w|] eqn:E; [|reflexivity].
    apply role_re_some in E. now apply H in E.
Qed.

Lemma parseInt10_acc (ds : list N) (acc : N) :
  fold_left (fun acc c => (acc * 10 + (c - 48))%N) ds acc
  = (acc * 10 ^ N.of_nat (length ds) + decimal ds)%N.
Proof.
  revert acc. induction ds as [|d ds IH]; intros acc.
  - simpl. lia.
  - cbn [fold_left decimal length]. rewrite IH.
    rewrite Nat2N.inj_succ, N.pow_succ_r'. lia.
Qed.

Lemma parseInt10_decimal (ds : list N) :
  parseInt10 ds = to_double (decimal ds).
Proof. unfold parseInt10. rewrite parseInt10_acc. f_equal. Qed.

Lemma to_double_exact (n : N) : (n < 2 ^ 53)%N -> to_double n = Finite n.
Proof.
  intros H. unfold to_double.
  destruct (N.ltb_spec n (2 ^ 53)) as [_|Hge]; [reflexivity | lia].
Qed.

(** ** The ref table *)

Lemma jsstring_eqb_eq (a b : jsstring) : jsstring_eqb a b = true <-> a = b.
Proof.
  unfold jsstring_eqb. destruct (list_eq_dec N.eq_dec a b); split;
    congruence.
Qed.

Lemma jsstring_eqb_refl (a : jsstring) : jsstring_eqb a a = true.
Proof. now apply jsstring_eqb_eq. Qed.

Lemma jsstring_eqb_neq (a b : jsstring) : a <> b -> jsstring_eqb a b = false.
Proof.
  intros H. destruct (jsstring_eqb a b) eqn:E; [|reflexivity].
  apply jsstring_eqb_eq in E. contradiction.
Qed.

Lemma map_get_set_same (m : RefMap) (k : jsstring) (v : RefData) :
  map_get (map_set m k v) k = Some v.
Proof.
  induction m as [|[k' v'] m IH]; simpl.
  - now rewrite jsstring_eqb_refl.
  - destruct (jsstring_eqb k' k) eqn:E; simpl.
    + now rewrite jsstring_eqb_refl.
    + now rewrite E.
Qed.

Lemma map_get_set_other (m : RefMap) (k k' : jsstring) (v : RefData) :
  k' <> k -> map_get (map_set m k v) k' = map_get m k'.
Proof.
  intros Hne. induction m as [|[k0 v0] m IH]; simpl.
  - rewrite jsstring_eqb_neq; auto.
  - destruct (jsstring_eqb k0 k) eqn:E; simpl.
    + apply jsstring_eqb_eq in E. subst k0.
      rewrite !jsstring_eqb_neq; auto.
    + destruct (jsstring_eqb k0 k'); auto.
Qed.

Lemma map_keys_set (m : RefMap) (k k' : jsstring) (v : RefData) :
  In k' (map_keys (map_set m k v)) <-> k' = k \/ In k' (map_keys m).
Proof.
  unfold map_keys. induction m as [|[k0 v0] m IH]; simpl.
  - intuition.
  - destruct (jsstring_eqb k0 k) eqn:E; simpl.
    + apply jsstring_eqb_eq in E. subst k0. intuition.
    + rewrite IH. intuition.
Qed.

Lemma map_keys_set_NoDup (m : RefMap) (k : jsstring) (v : RefData) :
  NoDup (map_keys m) -> NoDup (map_keys (map_set m k v)).
Proof.
  unfold map_keys. induction m as [|[k0 v0] m IH]; simpl; intros Hnd.
  - constructor; [simpl; tauto | constructor].
  - inversion Hnd as [|? ? Hnin Hnd']; subst.
    destruct (jsstring_eqb k0 k) eqn:E; simpl.
    + apply jsstring_eqb_eq in E. subst k0. now constructor.
    + constructor; [|now apply IH].
      intros Hin. apply (map_keys_set m k k0 v) in Hin.
      destruct Hin as [->|Hin]; [|contradiction].
      now rewrite jsstring_eqb_refl in E.
Qed.

Lemma map_get_none (m : RefMap) (k : jsstring) :
  map_get m k = None <-> ~ In k (map_keys m).
Proof.
  unfold map_keys. induction m as [|[k0 v0] m IH]; simpl.
  - tauto.
  - destruct (jsstring_eqb k0 k) eqn:E.
    + apply jsstring_eqb_eq in E. subst. split; [discriminate | tauto].
    + rewrite IH. split.
      * intros H [->|Hin]; [now rewrite jsstring_eqb_refl in E | tauto].
      * tauto.
Qed.

(** ** Parsing *)

Lemma parse_line_unfold (refs : RefMap) (line : jsstring) :
  parse_line refs line
  = match re_match ref_re line with
    | Some r => map_set refs r (line_entry line)
    | None => refs
    end.
Proof. reflexivity. Qed.

Lemma first_occurrence_is_group opening pre a closing line g :
  first_occurrence opening pre a closing line g -> group_ok pre a g.
Proof. intros (n & (before & after & _ & _ & Hg) & _). exact Hg. Qed.

Lemma first_ref_marker_fun (line r r' : jsstring) :
  first_ref_marker line r -> first_ref_marker line r' -> r = r'.
Proof. rewrite <- !ref_re_some. congruence. Qed.

Lemma line_entry_spec (line : jsstring) :
  role_spec line (role (line_entry line))
  /\ name_spec line (name (line_entry line))
  /\ nth_spec line (nth (line_entry line)).
Proof.
  unfold line_entry, role_spec, name_spec, nth_spec. cbn [role name nth].
  split; [|split].
  - destruct (re_match role_re line) as [w|] eqn:E.
    + left. now apply role_re_some.
    + right. split; [now apply role_re_none | reflexivity].
  - destruct (re_match name_re line) as [x|] eqn:E.
    + now apply name_re_some.
    + now apply name_re_none.
  - destruct (re_match nth_re line) as [ds|] eqn:E.
    + exists ds. split; [now apply nth_re_some | apply parseInt10_decimal].
    + now apply nth_re_none.
Qed.

Lemma parse_line_table_ok (refs : RefMap) (line : jsstring) :
  table_ok refs -> table_ok (parse_line refs line).
Proof.
  intros [Hnd Hk]. rewrite parse_line_unfold.
  destruct (re_match ref_re line) as [r|] eqn:E; [|now split].
  split.
  - now apply map_keys_set_NoDup.
  - intros k Hin. apply map_keys_set in Hin. destruct Hin as [->|Hin].
    + apply ref_re_some in E.
      exact (first_occurrence_is_group E).
    + now apply Hk.
Qed.

Lemma parse_lines_table_ok (lines : list jsstring) (refs : RefMap) :
  table_ok refs -> table_ok (fold_left parse_line lines refs).
Proof.
  revert refs. induction lines as [|l lines IH]; intros refs H; simpl.
  - exact H.
  - apply IH. now apply parse_line_table_ok.
Qed.

Lemma parse_lines_keep (lines : list jsstring) (refs : RefMap)
      (r : jsstring) :
  (forall l, In l lines -> ~ first_ref_marker l r) ->
  map_get (fold_left parse_line lines refs) r = map_get refs r.
Proof.
  revert refs. induction lines as [|l lines IH]; intros refs H; simpl.
  - reflexivity.
  - rewrite IH by (intros l' Hl'; apply H; now right).
    rewrite parse_line_unfold.
    destruct (re_match ref_re l) as [r'|] eqn:E; [|reflexivity].
    apply map_get_set_other. intros ->.
    apply (H l); [now left | now apply ref_re_some].
Qed.

Lemma parse_lines_last (before after : list jsstring) (line r : jsstring)
      (refs : RefMap) :
  first_ref_marker line r ->
  (forall l, In l after -> ~ first_ref_marker l r) ->
  map_get (fold_left parse_line (before ++ line :: after) refs) r
  = Some (line_entry line).
Proof.
  intros Hr Hafter. rewrite fold_left_app. cbn [fold_left].
  rewrite parse_lines_keep by exact Hafter.
  rewrite parse_line_unfold.
  apply ref_re_some in Hr. rewrite Hr. apply map_get_set_same.
Qed.

Lemma contains_first_ref_marker (line r0 : jsstring) :
  contains_ref_marker line r0 -> exists r, first_ref_marker line r.
Proof.
  intros [n Ho]. destruct (re_match ref_re line) as [r|] eqn:E.
  - exists r. now apply ref_re_some.
  - apply ref_re_none in E. now apply E in Ho.
Qed.

(** C3, as amended.  In a text given by its lines, a line whose leftmost
    marker of the form [ref=e<digits>] in brackets carries the ref id r, and
    which no later line with the same leftmost ref id follows, gives the
    table an entry for r.  The role of the entry is the word that follows
    the bullet of the line (indentation, a dash, optional blanks, then the
    whole run of word characters), or generic when the line does not start
    that way; its name is the leftmost double-quoted substring with at least
    one character between the quotes (a quote, one or more characters other
    than a quote, a quote), absent when there is none; its nth is the Number
    that parseInt gives for the digits of the leftmost [nth=<digits>]
    marker, which is the integer written when that is below 2^53, absent
    when there is no such marker.  The text
    [  - button QSearchQ [ref=e7] [nth=2]], Q the double quote, parses to
    the single entry e7 -> (button, Search, 2). *)
Theorem parse_line_entry :
  (forall (before after : list jsstring) (line r : jsstring),
      Forall no_line_feed (before ++ line :: after) ->
      first_ref_marker line r ->
      (forall l, In l after -> ~ first_ref_marker l r) ->
      exists e,
        map_get (parseRefsFromSnapshot
                   (join [LF] (before ++ line :: after))) r
        = Some e
        /\ role_spec line (role e)
        /\ name_spec line (name e)
        /\ nth_spec line (nth e))
  /\ (forall n : N, (n < 2 ^ 53)%N -> to_double n = Finite n)
  /\ parseRefsFromSnapshot
       (js "  - button " ++ q (js "Search") ++ js " [ref=e7] [nth=2]")
     = [(js "e7", {| role := js "button"; name := Some (js "Search");
                     nth := Some (Finite 2) |})].
Proof.
  split; [|split].
  - intros before after line r Hlf Hr Hafter.
    exists (line_entry line). split; [|apply line_entry_spec].
    unfold parseRefsFromSnapshot. rewrite split_join.
    + now apply parse_lines_last.
    + now destruct before.
    + exact Hlf.
  - exact to_double_exact.
  - vm_compute. reflexivity.
Qed.

Lemma parse_line_entry_witness :
  let line := js "  - link " ++ q (js "Docs") ++ js " [ref=e1] [nth=3]" in
  exists e,
    map_get (parseRefsFromSnapshot
               (join [LF] ([js "- main:"] ++ line :: [js "  - text: end"])))
            (js "e1")
    = Some e
    /\ role_spec line (role e)
    /\ name_spec line (name e)
    /\ nth_spec line (nth e).
Proof.
  intros line.
  apply (proj1 parse_line_entry [js "- main:"] [js "  - text: end"] line
               (js "e1")).
  - repeat constructor; intros H; vm_compute in H; intuition discriminate.
  - apply ref_re_some. vm_compute. reflexivity.
  - intros l [<-|[]] H. apply ref_re_some in H. vm_compute in H. discriminate.
Defined.

(** C3 as stated fails.  The line [- link Qsee [ref=e9]Q [ref=e2]], Q the
    double quote, contains the marker of e2, yet the non-global match stops
    at the leftmost marker: the entry is stored under e9 and e2 gets none.
    In [- link QQ QyQ [ref=e4]] the first pair of quotes encloses nothing
    and the name stored is the blank between the second and the third
    quote.  The digits 9007199254740993 (2^53 + 1) are stored as the Number
    9007199254740992. *)
Lemma marker_inside_name_gets_the_entry :
  let line := js "- link " ++ q (js "see [ref=e9]") ++ js " [ref=e2]" in
  let empty_quotes := js "- link " ++ q [] ++ js " " ++ q (js "y")
                      ++ js " [ref=e4]" in
  let large := js "- row [ref=e5] [nth=9007199254740993]" in
  contains_ref_marker line (js "e2")
  /\ map_get (parseRefsFromSnapshot line) (js "e2") = None
  /\ parseRefsFromSnapshot line
     = [(js "e9", {| role := js "link"; name := Some (js "see [ref=e9]");
                     nth := None |})]
  /\ parseRefsFromSnapshot empty_quotes
     = [(js "e4", {| role := js "link"; name := Some (js " ");
                     nth := None |})]
  /\ parseRefsFromSnapshot large
     = [(js "e5", {| role := js "row"; name := None;
                     nth := Some (Finite 9007199254740992) |})].
Proof.
  intros line empty_quotes large. split; [|vm_compute; repeat split].
  exists 22, (js "- link " ++ q (js "see [ref=e9]") ++ js " "), [].
  split; [reflexivity|]. split; [reflexivity|].
  exists (js "2"). repeat split. discriminate.
Qed.

(** C6, as amended.  The table built from a snapshot text has pairwise
    distinct keys, each the letter e followed by one or more digits; and
    when a ref id is the leftmost ref marker of several lines, the entry
    kept for it is the one of the last such line: in a text written as
    lines joined by line feeds, the entry of r is that of the line with
    leftmost marker r that no other such line follows. *)
Theorem duplicate_ref_later_wins :
  forall snapshot : jsstring,
    NoDup (map_keys (parseRefsFromSnapshot snapshot))
    /\ (forall k, In k (map_keys (parseRefsFromSnapshot snapshot)) ->
                  is_ref_id k)
    /\ (forall before line after r,
           split LF snapshot = before ++ line :: after ->
           first_ref_marker line r ->
           (forall l, In l after -> ~ first_ref_marker l r) ->
           map_get (parseRefsFromSnapshot snapshot) r
           = Some (line_entry line))
    /\ (forall before line after r,
           Forall no_line_feed (before ++ line :: after) ->
           snapshot = join [LF] (before ++ line :: after) ->
           first_ref_marker line r ->
           (forall l, In l after -> ~ first_ref_marker l r) ->
           map_get (parseRefsFromSnapshot snapshot) r
           = Some (line_entry line)).
Proof.
  intros snapshot. unfold parseRefsFromSnapshot.
  assert (Hok : table_ok (fold_left parse_line (split LF snapshot) [])).
  { apply parse_lines_table_ok. split; [constructor | intros k []]. }
  destruct Hok as [Hnd Hk]. split; [exact Hnd|]. split; [exact Hk|].
  split.
  - intros before line after r Es Hr Hafter. rewrite Es.
    now apply parse_lines_last.
  - intros before line after r Hlf -> Hr Hafter.
    rewrite split_join; [now apply parse_lines_last | now destruct before
                        | exact Hlf].
Qed.

Lemma duplicate_ref_later_wins_witness :
  let l1 := js "- button " ++ q (js "Old") ++ js " [ref=e3]" in
  let l2 := js "- link " ++ q (js "New") ++ js " [ref=e3] [nth=1]" in
  map_get (parseRefsFromSnapshot (l1 ++ LF :: l2)) (js "e3")
  = Some {| role := js "link"; name := Some (js "New"); nth := Some (Finite 1) |}.
Proof.
  intros l1 l2.
  destruct (duplicate_ref_later_wins (l1 ++ LF :: l2)) as (_ & _ & H & _).
  rewrite (H [l1] l2 [] (js "e3")).
  - vm_compute. reflexivity.
  - vm_compute. reflexivity.
  - apply ref_re_some. vm_compute. reflexivity.
  - intros l [].
Defined.

(** C6 as stated fails.  The ref id e1 appears on both lines, with different
    attributes, but on the second line it stands behind the marker of e2
    (inside the name): that line is stored under e2, and the table keeps for
    e1 the entry of the earlier line. *)
Lemma duplicate_ref_behind_another_marker :
  let l1 := js "- a " ++ q (js "x") ++ js " [ref=e1]" in
  let l2 := js "- link " ++ q (js "[ref=e2]") ++ js " [ref=e1]" in
  contains_ref_marker l1 (js "e1")
  /\ contains_ref_marker l2 (js "e1")
  /\ line_entry l2
     = {| role := js "link"; name := Some (js "[ref=e2]"); nth := None |}
  /\ map_get (parseRefsFromSnapshot (l1 ++ LF :: l2)) (js "e1")
     = Some {| role := js "a"; name := Some (js "x"); nth := None |}.
Proof.
  intros l1 l2. split; [|split; [|vm_compute; repeat split]].
  - exists 8, (js "- a " ++ q (js "x") ++ js " "), [].
    split; [reflexivity|]. split; [reflexivity|].
    exists (js "1"). repeat split. discriminate.
  - exists 18, (js "- link " ++ q (js "[ref=e2]") ++ js " "), [].
    split; [reflexivity|]. split; [reflexivity|].
    exists (js "1"). repeat split. discriminate.
Qed.

(** ** Truncation *)

Lemma truncate_spec (text : jsstring) (mc : option Z) :
  (0 <= limit_of mc)%Z ->
  ((Z.of_nat (length text) <= limit_of mc)%Z ->
     truncate text mc = (text, false))
  /\ ((Z.of_nat (length text) > limit_of mc)%Z ->
        truncate text mc
        = (firstn (Z.to_nat (limit_of mc)) text ++ TRUNCATION_MARKER, true)
        /\ Z.of_nat (length (firstn (Z.to_nat (limit_of mc)) text
                               ++ TRUNCATION_MARKER))
           = (limit_of mc + Z.of_nat (length TRUNCATION_MARKER))%Z).
Proof.
  intros HK. unfold truncate. fold (limit_of mc). split.
  - intros HL. destruct (Z.gtb_spec (Z.of_nat (length text)) (limit_of mc));
      [lia | reflexivity].
  - intros HL. destruct (Z.gtb_spec (Z.of_nat (length text)) (limit_of mc));
      [|lia].
    unfold slice0. destruct (Z.ltb_spec (limit_of mc) 0); [lia|].
    rewrite Z.min_l by lia. split; [reflexivity|].
    rewrite length_app, length_firstn. lia.
Qed.

Lemma takeSnapshot_returns (p : Page) (mc : option Z) (st : state)
      (v : option jsstring) :
  next_answer st = Returns v ->
  fst (takeSnapshot p mc st) = Val (truncate (text_of v) mc)
  /\ currentRefs (snd (takeSnapshot p mc st))
     = parseRefsFromSnapshot (text_of v).
Proof.
  intros Hv. unfold takeSnapshot, bind, get, modify, ret, driver, answer.
  cbn. destruct (snapshotForAI st); cbn; rewrite Hv; cbn; auto.
Qed.

(** C2, as amended.  Whenever the driver returns a snapshot text of length L
    and the limit K = [maxChars ?? 50000] is not negative: if L <= K,
    takeSnapshot returns the text unchanged with truncated = false; if
    L > K, it returns the first K characters of the text followed by
    TRUNCATION_MARKER, a string of length K + the length of the marker, with
    truncated = true. *)
Theorem truncation_boundary :
  forall (p : Page) (mc : option Z) (st : state) (v : option jsstring),
    next_answer st = Returns v ->
    (0 <= limit_of mc)%Z ->
    let text := text_of v in
    let K := limit_of mc in
    let out := fst (takeSnapshot p mc st) in
    ((Z.of_nat (length text) <= K)%Z -> out = Val (text, false))
    /\ ((Z.of_nat (length text) > K)%Z ->
          out = Val (firstn (Z.to_nat K) text ++ TRUNCATION_MARKER, true)
          /\ Z.of_nat (length (firstn (Z.to_nat K) text
                                 ++ TRUNCATION_MARKER))
             = (K + Z.of_nat (length TRUNCATION_MARKER))%Z).
Proof.
  intros p mc st v Hv HK text K out. subst text K out.
  destruct (@takeSnapshot_returns p mc st v Hv) as [Hout _].
  destruct (@truncate_spec (text_of v) mc HK) as [H1 H2].
  rewrite Hout. split.
  - intros HL. now rewrite (H1 HL).
  - intros HL. destruct (H2 HL) as [E1 E2]. rewrite E1. split; auto.
Qed.

Lemma truncation_boundary_witness :
  fst (takeSnapshot page0 (Some 2%Z)
         (init true [Returns (Some (js "abc"))]))
  = Val (js "ab" ++ TRUNCATION_MARKER, true)
  /\ fst (takeSnapshot page0 None (init true [Returns (Some (js "abc"))]))
     = Val (js "abc", false).
Proof.
  split.
  - apply (@truncation_boundary page0 (Some 2%Z)
             (init true [Returns (Some (js "abc"))])
             (Some (js "abc")) eq_refl); cbn; lia.
  - apply (@truncation_boundary page0 None
             (init true [Returns (Some (js "abc"))])
             (Some (js "abc")) eq_refl); cbn; lia.
Defined.

(** C2 as stated fails for a negative limit: with maxChars = -1 and the
    text abc, [slice(0, -1)] keeps ab, which is not a prefix of -1
    characters, and the length of the result is not K + the length of the
    marker. *)
Lemma truncation_negative_limit :
  fst (takeSnapshot page0 (Some (-1)%Z)
         (init true [Returns (Some (js "abc"))]))
  = Val (js "ab" ++ TRUNCATION_MARKER, true)
  /\ js "ab" <> firstn (Z.to_nat (-1)) (js "abc")
  /\ Z.of_nat (length (js "ab" ++ TRUNCATION_MARKER))
     <> (-1 + Z.of_nat (length TRUNCATION_MARKER))%Z.
Proof.
  split; [vm_compute; reflexivity|]. split; [discriminate|].
  vm_compute. discriminate.
Qed.

(** ** Session invariants *)

Lemma triple_bind {A B} (P : state -> Prop) (m : M A) (k : A -> M B)
      (R : A -> state -> Prop) (Q : B -> state -> Prop) (E : state -> Prop) :
  triple P m R E -> (forall a, triple (R a) (k a) Q E) ->
  triple P (bind m k) Q E.
Proof.
  intros Hm Hk st HP. unfold bind. specialize (Hm st HP).
  destruct (m st) as [[a|e] st']; [|exact Hm]. now apply Hk.
Qed.

Lemma triple_ret {A} (P : state -> Prop) (a : A) (Q : A -> state -> Prop)
      (E : state -> Prop) :
  (forall st, P st -> Q a st) -> triple P (ret a) Q E.
Proof. intros H st HP. now apply H. Qed.

Lemma triple_weaken {A} (P P' : state -> Prop) (m : M A)
      (Q Q' : A -> state -> Prop) (E E' : state -> Prop) :
  triple P' m Q' E' ->
  (forall st, P st -> P' st) -> (forall a st, Q' a st -> Q a st) ->
  (forall st, E' st -> E st) ->
  triple P m Q E.
Proof.
  intros Hm HP HQ HE st Hst. specialize (Hm st (HP st Hst)).
  destruct (m st) as [[a|e] st']; auto.
Qed.

(** A driver call changes neither the module variables nor the open
    objects. *)
Lemma triple_driver (P : state -> Prop) (c : call) :
  (forall st, P st -> P (snd (answer c st))) ->
  triple P (driver c) (fun _ => P) P.
Proof.
  intros H st HP. unfold driver. specialize (H st HP).
  destruct (answer c st) as [[e|v] st'] eqn:Ea; exact H.
Qed.

Lemma triple_str (P : state -> Prop) (c : call) :
  (forall st, P st -> P (snd (answer c st))) ->
  triple P (str (driver c)) (fun _ => P) P.
Proof.
  intros H. unfold str. eapply triple_bind; [now apply triple_driver|].
  intros v. now apply triple_ret.
Qed.

Lemma triple_swallow {A} (P : state -> Prop) (m : M A) :
  triple P m (fun _ => P) P -> triple P (swallow m) (fun _ => P) P.
Proof.
  intros H st HP. unfold swallow. specialize (H st HP).
  destruct (m st) as [[a|e] st']; exact H.
Qed.

Lemma consistent_answer (c : call) (st : state) :
  consistent st -> consistent (snd (answer c st)).
Proof. intros H. exact H. Qed.

Lemma active_answer (c : call) (st : state) :
  active st -> active (snd (answer c st)).
Proof. intros H. exact H. Qed.

Lemma parse_empty : parseRefsFromSnapshot [] = [].
Proof. reflexivity. Qed.

Lemma consistent_init (has_ai : bool) (e : list response) :
  consistent (init has_ai e).
Proof.
  unfold consistent, module_invariant, init. cbn.
  repeat split; try congruence; try tauto.
  now exists [].
Qed.


Ltac same_some :=
  repeat match goal with
  | E : ?x = Some ?a, H : ?x = Some ?b |- _ =>
      assert (a = b) by congruence; subst; clear H
  | E : ?x = Some _, H : ?x = None |- _ => congruence
  end.

Ltac inv_goal :=
  unfold active, consistent, module_invariant; cbn;
  repeat match goal with |- _ /\ _ => split end;
  cbn; intros;
  repeat match goal with
  | H : Some _ = Some _ |- _ => injection H as H; try subst
  | H : Some _ = None |- _ => discriminate H
  | H : None = Some _ |- _ => discriminate H
  | H : In _ (_ :: _) |- _ => destruct H as [H|H]; try subst
  | H : _ \/ _ |- _ => destruct H as [H|H]; try subst
  | H : In _ (filter _ _) |- _ => apply filter_In in H; destruct H as [H ?]
  | |- _ /\ _ => split
  end;
  same_some; cbn;
  try solve
    [ congruence | assumption | auto | now left | lia
    | exists []; reflexivity | eexists; reflexivity
    | match goal with
      | Hp : forall p, page _ = Some p -> _, H : page _ = Some _ |- _ =>
          destruct (Hp _ H); solve [assumption | congruence | now right]
      end
    | match goal with
      | Hb : forall b, browser _ = Some b -> _, H : browser _ = Some _ |- _ =>
          apply (Hb _ H)
      end
    | match goal with
      | Hid : forall p, In p _ -> _ < _, H : In _ _ |- _ =>
          apply Hid in H; cbn in *; lia
      end ].

Ltac use_consistent H :=
  let Hm1 := fresh "Hm1" in let Hm2 := fresh "Hm2" in
  let Hp := fresh "Hp" in let Hb := fresh "Hb" in
  let Hid := fresh "Hid" in let Hr := fresh "Hr" in
  pose proof H as ((Hm1 & Hm2) & Hp & Hb & Hid & Hr);
  try (match goal with E : page _ = Some _ |- _ => destruct (Hp _ E) end);
  try (match goal with E : browser _ = Some _ |- _ => specialize (Hb _ E) end).

Lemma ensureBrowser_active :
  triple consistent ensureBrowser
         (fun p st => active st /\ page st = Some p) consistent.
Proof.
  intros st H.
  unfold ensureBrowser, launch, newContext, newPage, bind, get, modify, ret,
    driver, answer, next_answer.
  destruct (browser st) as [b|] eqn:Eb; destruct (page st) as [p|] eqn:Ep;
    cbn; rewrite ?Eb, ?Ep; cbn.
  - use_consistent H. inv_goal.
  - use_consistent H. destruct (env st) as [|[e|v] rest]; cbn;
      try destruct rest as [|[e'|v'] rest]; cbn; inv_goal.
  - use_consistent H. exfalso. apply Hm1; congruence.
  - use_consistent H. destruct (env st) as [|[e|v] rest]; cbn;
      try destruct rest as [|[e'|v'] rest]; cbn;
      try destruct rest as [|[e''|v''] rest]; cbn; inv_goal.
Qed.

Lemma closeBrowser_consistent :
  triple consistent closeBrowser (fun _ => consistent) consistent.
Proof.
  intros st H.
  unfold closeBrowser, browser_close, bind, get, modify, ret, driver, answer, next_answer.
  destruct (browser st) as [b|] eqn:Eb; cbn; [|exact H].
  use_consistent H. destruct (env st) as [|[e|v] rest]; cbn; inv_goal.
Qed.

Lemma takeSnapshot_active (p : Page) (mc : option Z) :
  triple active (takeSnapshot p mc) (fun _ => active) active.
Proof.
  intros st [H Hb].
  unfold takeSnapshot, bind, get, modify, ret, driver, answer, next_answer.
  use_consistent H.
  destruct (snapshotForAI st); cbn;
    destruct (env st) as [|[e|v] rest]; cbn; inv_goal.
Qed.

Lemma newPage_active (c : Context) :
  triple active (newPage c)
         (fun p st => active st /\ In p (open_pages st) /\ context p = c)
         active.
Proof.
  intros st [H Hb].
  unfold newPage, bind, get, modify, ret, driver, answer, next_answer.
  use_consistent H.
  destruct (env st) as [|[e|v] rest]; cbn; inv_goal.
Qed.

Lemma triple_active_driver (c : call) :
  triple active (driver c) (fun _ => active) active.
Proof. apply triple_driver. intros st H. exact H. Qed.

Lemma triple_active_str (c : call) :
  triple active (str (driver c)) (fun _ => active) active.
Proof. apply triple_str. intros st H. exact H. Qed.

Lemma triple_active_ret {A} (a : A) :
  triple active (ret a) (fun _ => active) active.
Proof. apply triple_ret. auto. Qed.

Lemma triple_active_get {A} (f : state -> A) :
  triple active (get f) (fun _ => active) active.
Proof. intros st H. exact H. Qed.

Ltac chain :=
  repeat first
    [ apply takeSnapshot_active
    | apply triple_active_ret
    | apply triple_active_driver
    | apply triple_active_str
    | apply triple_active_get
    | apply triple_swallow
    | (eapply triple_bind; [|intros ?]) ].

Lemma act_body_active (p : Page) (r : actRequest) :
  triple active (act_body p r) (fun _ => active) active.
Proof.
  unfold act_body.
  destruct (kind r);
    repeat match goal with
           | |- context [if ?b then _ else _] => destruct b
           end;
    chain.
Qed.

Lemma newPage_same_context (p : Page) :
  triple (fun st => active st /\ page st = Some p) (newPage (context p))
         opened active.
Proof.
  intros st [[H Hb] Ep].
  unfold newPage, bind, get, modify, ret, driver, answer, next_answer, opened.
  use_consistent H.
  destruct (env st) as [|[e|v] rest]; cbn; inv_goal.
Qed.

Lemma set_page_opened (np : Page) :
  triple (opened np) (modify (set_page (Some np))) (fun _ => active) active.
Proof.
  intros st ([H Hb] & Hin & Hbr). unfold modify. use_consistent H. inv_goal.
Qed.

Lemma func_body_consistent (i : input) :
  triple consistent (func_body i) (fun _ => consistent) consistent.
Proof.
  assert (Hw : forall A (m : M A),
             triple active m (fun _ => active) active ->
             forall p : Page,
               triple (fun st => active st /\ page st = Some p) m
                      (fun _ => consistent) consistent).
  { intros A m Hm p. eapply triple_weaken; [exact Hm| | |].
    - now intros st [H _].
    - now intros a st [H _].
    - now intros st [H _]. }
  unfold func_body. destruct (action_of i).
  - destruct (negb (present (url i))); [now apply triple_ret|].
    eapply triple_bind; [apply ensureBrowser_active|]. intros p.
    apply Hw. chain.
  - destruct (negb (present (url i))); [now apply triple_ret|].
    eapply triple_bind; [apply ensureBrowser_active|]. intros p.
    apply triple_weaken
      with (P' := fun st => active st /\ page st = Some p)
           (Q' := fun _ : payload => active) (E' := active);
      [|auto|now intros a st [H _]|now intros st [H _]].
    eapply triple_bind; [apply newPage_same_context|]. intros np.
    apply triple_bind with (R := fun _ => opened np).
    { apply triple_weaken
        with (P' := opened np) (Q' := fun _ => opened np) (E' := opened np);
        [apply triple_driver; auto|auto|auto|now intros st [H _]]. }
    intros u. eapply triple_bind; [apply set_page_opened|]. intros u'.
    chain.
  - eapply triple_bind; [apply ensureBrowser_active|]. intros p.
    apply Hw. chain.
  - destruct (request i) as [r|]; [|now apply triple_ret].
    eapply triple_bind; [apply ensureBrowser_active|]. intros p.
    apply Hw. apply act_body_active.
  - eapply triple_bind; [apply ensureBrowser_active|]. intros p.
    apply Hw. chain.
  - eapply triple_bind; [apply closeBrowser_consistent|]. intros u.
    now apply triple_ret.
Qed.

Lemma func_consistent (i : input) (st : state) :
  consistent st -> consistent (snd (func i st)).
Proof.
  intros H. unfold func. pose proof (@func_body_consistent i st H) as Hb.
  destruct (func_body i st) as [[r|e] st']; exact Hb.
Qed.

Lemma reachable_consistent (st : state) : reachable st -> consistent st.
Proof.
  induction 1 as [has_ai e|st i e _ IH].
  - apply consistent_init.
  - apply func_consistent. exact IH.
Qed.

(** ** Running an invocation case by case *)

Ltac run_step :=
  match goal with
  | |- context [match ?x with _ => _ end] =>
      lazymatch x with
      | context [match _ with _ => _ end] => fail
      | _ => destruct x eqn:?
      end
  end.

Lemma func_module_invariant (i : input) (st : state) :
  module_invariant st -> module_invariant (snd (func i st)).
Proof.
  intros [H1 H2].
  unfold func, func_body, act_body, takeSnapshot, closeBrowser, ensureBrowser,
    browser_close, launch, newContext, newPage, str, swallow, bind, get,
    modify, ret, driver, answer, next_answer.
  destruct i as [a u mc r]. cbn [action_of url maxChars request].
  destruct a;
    repeat (cbn; run_step); cbn; unfold module_invariant; cbn;
    intuition congruence.
Qed.

Ltac run :=
  unfold func, func_body, act_body, takeSnapshot, closeBrowser, ensureBrowser,
    browser_close, launch, newContext, newPage, str, swallow, bind, get,
    modify, ret, driver, answer, next_answer in *.

(** C10.  Every invocation of the tool preserves the module-state invariant
    (a page only with a browser; an empty ref table without a browser), and
    the invariant holds in every state reachable from the initial one by
    invocations of the tool, whatever the driver answers. *)
Theorem module_invariant_reachable :
  (forall (i : input) (st : state),
      module_invariant st -> module_invariant (snd (func i st)))
  /\ (forall st : state, reachable st -> module_invariant st).
Proof.
  split.
  - exact func_module_invariant.
  - intros st H. apply reachable_consistent in H. apply H.
Qed.

Lemma module_invariant_reachable_witness :
  module_invariant
    (snd (func {| action_of := snapshot; url := None; maxChars := None;
                  request := None |}
               (set_env [Returns None; Returns None; Throws (js "closed")]
                        (init true [])))).
Proof.
  apply (proj2 module_invariant_reachable).
  apply reach_step. apply reach_init.
Defined.

Ltac run_trace :=
  repeat (cbn -[parseRefsFromSnapshot truncate text_of resolveRefToLocator
                option_map capture_index typed_from skipn List.nth nth_error];
          run_step);
  cbn -[parseRefsFromSnapshot truncate text_of resolveRefToLocator
        option_map capture_index typed_from skipn List.nth nth_error];
  rewrite <- ?app_assoc; rewrite ?skipn_app_length, ?skipn_all.

(** C8.  An invocation always returns a payload, whatever the input, the
    state and the answers of the driver.  Whenever the driver, answering
    within its types, throws on a call of the invocation whose failure the
    code does not discard (every call but the waits for the network to be
    idle), with message m, the payload returned is the error
    [Browser (Playwright)] m, that call is the last one the invocation
    makes, and the failure is logged once. *)
Theorem errors_are_structured :
  forall (i : input) (st : state),
    let st' := snd (func i st) in
    let cs := new_calls st st' in
    calls st' = calls st ++ cs
    /\ (typed_answers st st' ->
        forall k c m,
          nth_error cs k = Some c -> swallowed c = false ->
          answer_to st k = Throws m ->
          fst (func i st) = PError (js "[Browser (Playwright)] " ++ m)
          /\ length cs = S k
          /\ log st' = log st ++ [js "[Browser (Playwright)] error: " ++ m]).
Proof.
  intros i st. unfold typed_answers, new_calls, answer_to. run.
  destruct i as [a u mc r].
  cbn [action_of url maxChars request].
  destruct a; run_trace;
    (split; [first [reflexivity | symmetry; apply app_nil_r]|]);
    intros _ k c m Hk Hs Ha;
    repeat (destruct k as [|k]; cbn in Hk, Ha;
            [ first [ discriminate Hk
                    | injection Hk as <-;
                      first [ discriminate Hs | discriminate Ha
                            | injection Ha as <-; repeat split ] ]
            | try discriminate Hk ]).
Qed.

Lemma errors_are_structured_witness :
  let st := init true [Returns None; Returns None; Returns None;
                       Throws (js "net::ERR_NAME_NOT_RESOLVED")] in
  let i := url_input navigate "https://a.test" in
  fst (func i st)
  = PError (js "[Browser (Playwright)] net::ERR_NAME_NOT_RESOLVED")
  /\ log (snd (func i st))
     = [js "[Browser (Playwright)] error: net::ERR_NAME_NOT_RESOLVED"].
Proof.
  intros st i.
  assert (Ht : typed_answers st (snd (func i st)))
    by (vm_compute; reflexivity).
  destruct (proj2 (errors_are_structured i st) Ht 3
                  (Goto page0 (js "https://a.test"))
                  (js "net::ERR_NAME_NOT_RESOLVED"))
    as (H1 & _ & H3).
  - vm_compute. reflexivity.
  - reflexivity.
  - reflexivity.
  - split; [exact H1 | exact H3].
Defined.

(** ** Resolution of refs *)

Lemma map_get_set_inv (m : RefMap) (k k' : jsstring) (v e : RefData) :
  map_get (map_set m k v) k' = Some e ->
  (k' = k /\ e = v) \/ map_get m k' = Some e.
Proof.
  intros H. destruct (list_eq_dec N.eq_dec k' k) as [->|Hne].
  - rewrite map_get_set_same in H. injection H as <-. now left.
  - rewrite map_get_set_other in H by exact Hne. now right.
Qed.

Lemma line_entry_name_ok (line : jsstring) :
  match name (line_entry line) with
  | Some n => truthy n = true
  | None => True
  end.
Proof.
  unfold line_entry. cbn [name].
  destruct (re_match name_re line) as [x|] eqn:E; [|exact I].
  apply name_re_some in E. apply first_occurrence_is_group in E.
  destruct E as (run & -> & Hne & _). destruct run; [contradiction|].
  reflexivity.
Qed.

Lemma parse_names_ok (text : jsstring) :
  names_ok (parseRefsFromSnapshot text).
Proof.
  unfold parseRefsFromSnapshot.
  assert (H : names_ok []) by (intros k e; discriminate).
  revert H. generalize (@nil (jsstring * RefData)) as refs.
  induction (split LF text) as [|l lines IH]; intros refs H; simpl.
  - exact H.
  - apply IH. rewrite parse_line_unfold.
    destruct (re_match ref_re l) as [r|]; [|exact H].
    intros k e Hg. apply map_get_set_inv in Hg.
    destruct Hg as [[_ ->]|Hg]; [apply line_entry_name_ok | now apply (H k)].
Qed.

(** C4, as amended.  In every reachable state and for every ref id present
    in the ref table, resolveRefToLocator builds the getByRole locator of
    the stored role, whose options carry the stored name with exact = true
    when a name is stored and are empty otherwise.  When the stored nth is a
    number n > 0 the locator is narrowed by nth(n), the zero-based offset n
    among the role/name matches; when the stored nth is 0 or absent no
    offset is applied: both give the same un-indexed role locator. *)
Theorem resolve_present :
  forall (st : state) (p : Page) (refId : jsstring) (e : RefData),
    reachable st ->
    map_get (currentRefs st) refId = Some e ->
    let options :=
      {| opt_name := name e;
         opt_exact := match name e with Some _ => Some true | None => None end
      |} in
    let target := GetByRole p (role e) options in
    let l := resolveRefToLocator (currentRefs st) p refId in
    (forall n, nth e = Some n -> is_positive n = true -> l = Nth target n)
    /\ (nth e = Some (Finite 0) -> l = target)
    /\ (nth e = None -> l = target).
Proof.
  intros st p refId e Hreach Hget options target l.
  assert (Hn : match name e with Some n => truthy n = true | None => True end).
  { apply reachable_consistent in Hreach.
    destruct Hreach as (_ & _ & _ & _ & text & Ht).
    rewrite Ht in Hget. exact (@parse_names_ok text refId e Hget). }
  assert (El : l = match nth e with
                   | Some n => if is_positive n then Nth target n else target
                   | None => target
                   end).
  { subst l target options. unfold resolveRefToLocator. rewrite Hget.
    destruct (name e) as [n|]; [rewrite Hn|]; reflexivity. }
  rewrite El. split; [|split].
  - intros n -> ->. reflexivity.
  - intros ->. reflexivity.
  - intros ->. reflexivity.
Qed.

Lemma resolve_present_witness :
  let target :=
    GetByRole page0 (js "button")
              {| opt_name := Some (js "Go"); opt_exact := Some true |} in
  resolveRefToLocator (currentRefs two_buttons_state) page0 (js "e2")
  = Nth target (Finite 1)
  /\ resolveRefToLocator (currentRefs two_buttons_state) page0 (js "e1")
     = target.
Proof.
  intros target.
  assert (Hreach : reachable two_buttons_state)
    by (apply reach_step, reach_init).
  assert (H2 : map_get (currentRefs two_buttons_state) (js "e2")
               = Some {| role := js "button"; name := Some (js "Go");
                         nth := Some (Finite 1) |})
    by (vm_compute; reflexivity).
  assert (H1 : map_get (currentRefs two_buttons_state) (js "e1")
               = Some {| role := js "button"; name := Some (js "Go");
                         nth := Some (Finite 0) |})
    by (vm_compute; reflexivity).
  split.
  - exact (proj1 (@resolve_present two_buttons_state page0 (js "e2") _
                    Hreach H2) (Finite 1) eq_refl eq_refl).
  - exact (proj1 (proj2 (@resolve_present two_buttons_state page0 (js "e1") _
                           Hreach H1)) eq_refl).
Defined.

(** C4 as stated fails for nth = 0.  After the snapshot of two buttons of
    the same name, the entry of e1 has nth = 0; the target the claim
    describes is the first of the role/name matches, and the locator the
    code builds is the role locator itself, which stands for both buttons:
    the guard nth > 0 leaves it un-indexed. *)
Lemma nth_zero_is_not_the_first_match :
  let e := {| role := js "button"; name := Some (js "Go");
              nth := Some (Finite 0) |} in
  let target :=
    GetByRole page0 (js "button")
              {| opt_name := Some (js "Go"); opt_exact := Some true |} in
  reachable two_buttons_state
  /\ map_get (currentRefs two_buttons_state) (js "e1") = Some e
  /\ spec_target page0 e = first_match target
  /\ resolveRefToLocator (currentRefs two_buttons_state) page0 (js "e1")
     = target
  /\ resolveRefToLocator (currentRefs two_buttons_state) page0 (js "e1")
     <> spec_target page0 e.
Proof.
  intros e target. split; [apply reach_step, reach_init|].
  split; [vm_compute; reflexivity|]. split; [reflexivity|].
  split; [vm_compute; reflexivity|]. vm_compute. discriminate.
Qed.

(** ** Snapshots and pages *)

Ltac run_pure :=
  repeat (cbn -[parseRefsFromSnapshot truncate text_of resolveRefToLocator];
          run_step);
  cbn -[parseRefsFromSnapshot truncate text_of resolveRefToLocator].

Lemma snapshot_table (i : input) (st : state) (v : option jsstring) :
  action_of i = snapshot ->
  captured st (snd (func i st)) = Some (Returns v) ->
  currentRefs (snd (func i st)) = parseRefsFromSnapshot (text_of v).
Proof.
  intros Ha. unfold captured, new_calls, answer_to. run. rewrite Ha.
  run_trace; cbn -[parseRefsFromSnapshot text_of]; intros H; congruence.
Qed.

Lemma snapshot_table_kept (i : input) (st : state) :
  action_of i = snapshot ->
  (forall v, captured st (snd (func i st)) <> Some (Returns v)) ->
  currentRefs (snd (func i st)) = currentRefs st.
Proof.
  intros Ha. unfold captured, new_calls, answer_to. run. rewrite Ha.
  run_trace; cbn -[parseRefsFromSnapshot text_of]; intros H;
    first [ reflexivity | exfalso; eapply H; reflexivity ].
Qed.

Lemma snapshot_post (i : input) (st : state) :
  action_of i = snapshot ->
  match func i st with
  | (PSnapshot u t s tr n refs h, st') =>
      exists v,
        captured st st' = Some (Returns v)
        /\ refs = parseRefsFromSnapshot (text_of v) /\ n = map_size refs
        /\ (s, tr) = truncate (text_of v) (maxChars i)
  | _ => True
  end.
Proof.
  intros Ha. unfold captured, new_calls, answer_to. run. rewrite Ha.
  run_trace; try exact I; cbn -[parseRefsFromSnapshot truncate text_of];
    eexists; (split; [reflexivity|]); repeat split;
    symmetry; apply surjective_pairing.
Qed.

Lemma resolve_absent (refs : RefMap) (p : Page) (refId : jsstring) :
  map_get refs refId = None ->
  resolveRefToLocator refs p refId = Locator p (js "aria-ref=" ++ refId).
Proof. intros H. unfold resolveRefToLocator. now rewrite H. Qed.

(** C1.  Whenever the capture call of a snapshot action returns (a string,
    on the ariaSnapshot path), the ref table is from then on exactly the
    table parsed from the whole text the driver returned to that call,
    whatever the table was before and whatever the limit of the truncation,
    and a ref id absent from that text's table resolves to the locator
    aria-ref=<id>.  A snapshot payload is only
    returned after such a capture: it carries that table and the truncation
    of that text.  When the capture call is not reached or throws, the table
    is left as it was.  Hence, for two snapshot actions in sequence whose
    captures return the texts S1 and S2, a ref id of the table of S1 that is
    absent from the table of S2 has an entry after the first action and
    resolves to the aria-ref locator after the second. *)
Theorem snapshot_replaces_table :
  (forall (i : input) (st : state) (v : option jsstring),
      action_of i = snapshot ->
      let st' := snd (func i st) in
      typed_answers st st' ->
      captured st st' = Some (Returns v) ->
      currentRefs st' = parseRefsFromSnapshot (text_of v)
      /\ forall p refId,
           map_get (parseRefsFromSnapshot (text_of v)) refId = None ->
           resolveRefToLocator (currentRefs st') p refId
           = Locator p (js "aria-ref=" ++ refId))
  /\ (forall (i : input) (st : state) u t s tr n refs h,
         action_of i = snapshot ->
         fst (func i st) = PSnapshot u t s tr n refs h ->
         exists v,
           captured st (snd (func i st)) = Some (Returns v)
           /\ refs = parseRefsFromSnapshot (text_of v)
           /\ (s, tr) = truncate (text_of v) (maxChars i))
  /\ (forall (i : input) (st : state),
         action_of i = snapshot ->
         (forall v, captured st (snd (func i st)) <> Some (Returns v)) ->
         currentRefs (snd (func i st)) = currentRefs st)
  /\ (forall (i1 i2 : input) (st : state) (e : list response)
             (v1 v2 : option jsstring),
         action_of i1 = snapshot -> action_of i2 = snapshot ->
         let st1 := snd (func i1 st) in
         let st2 := snd (func i2 (set_env e st1)) in
         typed_answers st st1 -> typed_answers (set_env e st1) st2 ->
         captured st st1 = Some (Returns v1) ->
         captured (set_env e st1) st2 = Some (Returns v2) ->
         forall p refId,
           map_get (parseRefsFromSnapshot (text_of v1)) refId <> None ->
           map_get (parseRefsFromSnapshot (text_of v2)) refId = None ->
           map_get (currentRefs st1) refId <> None
           /\ resolveRefToLocator (currentRefs st2) p refId
              = Locator p (js "aria-ref=" ++ refId)).
Proof.
  split; [|split; [|split]].
  - intros i st v Ha st' _ Hc.
    pose proof (@snapshot_table i st v Ha Hc) as E. split; [exact E|].
    intros p refId Hnone. apply resolve_absent. subst st'. now rewrite E.
  - intros i st u t s tr n refs h Ha Hr.
    pose proof (snapshot_post i st Ha) as H.
    destruct (func i st) as [r st']. cbn in Hr. subst r.
    destruct H as (v & H1 & H2 & _ & H3). now exists v.
  - intros i st Ha H. now apply snapshot_table_kept.
  - intros i1 i2 st e v1 v2 Ha1 Ha2 st1 st2 _ _ Hc1 Hc2 p refId Hin Hnone.
    pose proof (@snapshot_table i1 st v1 Ha1 Hc1) as E1.
    pose proof (@snapshot_table i2 (set_env e st1) v2 Ha2 Hc2) as E2.
    fold st1 in E1. fold st2 in E2. split; [now rewrite E1|].
    apply resolve_absent. now rewrite E2.
Qed.

Lemma navigate_loaded (i : input) (st : state) :
  action_of i = navigate ->
  match func i st with
  | (PLoaded _ _ _, st') => page st' <> None
  | _ => True
  end.
Proof.
  intros Ha. run. rewrite Ha. run_pure; try exact I; congruence.
Qed.

Lemma open_post (i : input) (st : state) (p1 : Page) :
  action_of i = open -> consistent st -> page st = Some p1 ->
  match func i st with
  | (PLoaded _ _ _, st') =>
      exists p2,
        page st' = Some p2 /\ p2 <> p1 /\ context p2 = context p1
        /\ In p1 (open_pages st') /\ In p2 (open_pages st')
        /\ calls st'
           = calls st ++ [NewPage (context p1); Goto p2 (text_of (url i));
                          PageUrl p2; PageTitle p2]
  | _ => True
  end.
Proof.
  intros Ha Hc Hp. destruct Hc as (_ & Hpg & _ & Hid & _).
  destruct (Hpg p1 Hp) as [Hin Hb]. pose proof (Hid p1 Hin) as Hlt.
  run. rewrite Ha. destruct (negb (present (url i))); cbn; [exact I|].
  rewrite Hb. cbn. rewrite Hp.
  run_pure; try exact I;
    (eexists; repeat split;
     [ intros E; rewrite <- E in Hlt; cbn in Hlt; lia
     | now right
     | now left
     | repeat rewrite <- app_assoc; reflexivity ]).
Qed.

(** C9.  From a reachable state, when navigate and then open both return
    their success payload, open has created a new page in the context of the
    page that was active and has made it the active page; the page active
    before is still open, the driver calls of open being newPage on that
    context and goto, url and title on the new page. *)
Theorem open_keeps_prior_page :
  forall (i1 i2 : input) (st : state) (e : list response) u1 t1 h1 u2 t2 h2,
    reachable st ->
    action_of i1 = navigate -> action_of i2 = open ->
    let st1 := snd (func i1 st) in
    let st2 := snd (func i2 (set_env e st1)) in
    fst (func i1 st) = PLoaded u1 t1 h1 ->
    fst (func i2 (set_env e st1)) = PLoaded u2 t2 h2 ->
    exists p1 p2,
      page st1 = Some p1 /\ page st2 = Some p2
      /\ p2 <> p1 /\ context p2 = context p1
      /\ In p1 (open_pages st2) /\ In p2 (open_pages st2)
      /\ calls st2
         = calls st1 ++ [NewPage (context p1); Goto p2 (text_of (url i2));
                         PageUrl p2; PageTitle p2].
Proof.
  intros i1 i2 st e u1 t1 h1 u2 t2 h2 Hreach Ha1 Ha2 st1 st2 Hr1 Hr2.
  assert (Hc1 : consistent st1).
  { apply func_consistent. now apply reachable_consistent. }
  assert (Hp1 : page st1 <> None).
  { pose proof (navigate_loaded i1 st Ha1) as H. subst st1.
    destruct (func i1 st) as [r st']. cbn in Hr1. subst r. exact H. }
  destruct (page st1) as [p1|] eqn:Ep1; [|contradiction].
  pose proof (@open_post i2 (set_env e st1) p1 Ha2 Hc1 Ep1) as H.
  subst st2. destruct (func i2 (set_env e st1)) as [r st'].
  cbn in Hr2. subst r. destruct H as (p2 & H).
  exists p1, p2. split; [reflexivity|]. exact H.
Qed.

Lemma snapshot_replaces_table_witness :
  let t1 := js "- link " ++ q (js "Docs") ++ js " [ref=e1]" ++ [LF]
            ++ js "- button " ++ q (js "Go") ++ js " [ref=e2]" in
  let t2 := js "- link " ++ q (js "Docs") ++ js " [ref=e1]" in
  let st0 := init false [Returns None; Returns None; Returns None;
                         Returns None; Returns (Some t1)] in
  let st1 := snd (func (snapshot_input (Some 5%Z)) st0) in
  let st2 := snd (func (snapshot_input None)
                       (set_env [Returns None; Returns (Some t2)] st1)) in
  map_get (currentRefs st1) (js "e2") <> None
  /\ resolveRefToLocator (currentRefs st2) page0 (js "e2")
     = Locator page0 (js "aria-ref=e2").
Proof.
  intros t1 t2 st0 st1 st2.
  apply (proj2 (proj2 (proj2 snapshot_replaces_table))
           (snapshot_input (Some 5%Z)) (snapshot_input None) st0
           [Returns None; Returns (Some t2)] (Some t1) (Some t2)
           eq_refl eq_refl).
  - vm_compute. reflexivity.
  - vm_compute. reflexivity.
  - vm_compute. reflexivity.
  - vm_compute. reflexivity.
  - vm_compute. discriminate.
  - vm_compute. reflexivity.
Defined.

Lemma open_keeps_prior_page_witness :
  let st1 := snd (func (url_input navigate "https://a.test") (init true [])) in
  let st2 := snd (func (url_input open "https://b.test") (set_env [] st1)) in
  exists p1 p2,
    page st1 = Some p1 /\ page st2 = Some p2
    /\ p2 <> p1 /\ context p2 = context p1
    /\ In p1 (open_pages st2) /\ In p2 (open_pages st2)
    /\ calls st2
       = calls st1 ++ [NewPage (context p1); Goto p2 (js "https://b.test");
                       PageUrl p2; PageTitle p2].
Proof.
  intros st1 st2.
  assert (E1 : exists u t h,
             fst (func (url_input navigate "https://a.test") (init true []))
             = PLoaded u t h)
    by (vm_compute; repeat eexists).
  assert (E2 : exists u t h,
             fst (func (url_input open "https://b.test") (set_env [] st1))
             = PLoaded u t h)
    by (vm_compute; repeat eexists).
  destruct E1 as (u1 & w1 & h1 & E1). destruct E2 as (u2 & w2 & h2 & E2).
  exact (@open_keeps_prior_page
           (url_input navigate "https://a.test")
           (url_input open "https://b.test") (init true []) []
           u1 w1 h1 u2 w2 h2 (reach_init true [])
           eq_refl eq_refl E1 E2).
Defined.

(** ** Validation and teardown *)

(** C5.  The code at the input where the claim breaks: act with kind click
    and no ref on the uninitialised session.  The payload is the error
    [ref is required for click], but ensureBrowser has run before the check:
    the driver has launched a browser and created a context and a page. *)
Theorem click_without_ref_launches :
  let r := func click_without_ref (init true []) in
  fst r = PError (js "ref is required for click")
  /\ calls (snd r)
     = [Launch; NewContext 0;
        NewPage {| ctx_id := 1; ctx_browser := 0 |}]
  /\ browser (snd r) = Some 0.
Proof. vm_compute. repeat split. Qed.

Lemma missing_url_no_call (i : input) (st : state) :
  (action_of i = navigate \/ action_of i = open) ->
  present (url i) = false ->
  exists m, func i st = (PError m, st).
Proof.
  intros [Ha|Ha] Hu; unfold func, func_body; rewrite Ha, Hu; cbn;
    eexists; reflexivity.
Qed.

Lemma missing_field_active_no_call (i : input) (r : actRequest) (st : state)
      (b : Browser) (p : Page) :
  action_of i = act -> request i = Some r ->
  browser st = Some b -> page st = Some p ->
  (kind r = click /\ present (ref r) = false)
  \/ (kind r = type /\ (present (ref r) = false \/ present (text r) = false))
  \/ (kind r = press /\ present (key r) = false) ->
  exists m, func i st = (PError m, st).
Proof.
  intros Ha Hr Hb Hp H. unfold func, func_body, ensureBrowser, bind, get, ret.
  rewrite Ha, Hr. cbn. rewrite Hb, Hp. unfold act_body.
  destruct H as [[Hk H]|[[Hk H]|[Hk H]]]; rewrite Hk.
  - rewrite H. cbn. eexists; reflexivity.
  - destruct H as [H|H].
    + rewrite H. cbn. eexists; reflexivity.
    + destruct (present (ref r)); rewrite H; cbn; eexists; reflexivity.
  - rewrite H. cbn. eexists; reflexivity.
Qed.

(** C7.  For a close action: without a browser the payload is
    [Browser closed] and the state is unchanged (no driver call, nothing
    logged); with a browser b whose close succeeds the payload is
    [Browser closed], the one driver call is the close of b, neither b nor
    any of its pages is open any more, the browser and page references are
    null and the ref table is empty, and a further close changes nothing. *)
Theorem close_idempotent :
  forall (i : input) (st : state),
    action_of i = close ->
    (browser st = None ->
       func i st = (PClosed (js "Browser closed"), st))
    /\ (forall b v,
          browser st = Some b -> next_answer st = Returns v ->
          let st' := snd (func i st) in
          fst (func i st) = PClosed (js "Browser closed")
          /\ browser st' = None /\ page st' = None /\ currentRefs st' = []
          /\ calls st' = calls st ++ [BrowserClose b]
          /\ ~ In b (open_browsers st')
          /\ (forall p, In p (open_pages st') ->
                        ctx_browser (context p) <> b)
          /\ func i st' = (PClosed (js "Browser closed"), st')).
Proof.
  intros i st Ha. split.
  - intros Hb. run. rewrite Ha. cbn. rewrite Hb. reflexivity.
  - intros b v Hb Hv. run. rewrite Ha. cbn. rewrite Hb. cbn.
    rewrite Hv. cbn. repeat split.
    + intros Hin. apply filter_In in Hin. destruct Hin as [_ Hin].
      now rewrite Nat.eqb_refl in Hin.
    + intros p Hin Hc. apply filter_In in Hin. destruct Hin as [_ Hin].
      rewrite Hc, Nat.eqb_refl in Hin. discriminate.
Qed.

Lemma close_idempotent_witness :
  let i := {| action_of := close; url := None; maxChars := None;
              request := None |} in
  let st := snd (func {| action_of := navigate;
                         url := Some (js "https://example.test");
                         maxChars := None; request := None |}
                      (init true [])) in
  browser st = Some 0
  /\ browser (snd (func i st)) = None
  /\ func i (snd (func i st)) = (PClosed (js "Browser closed"), snd (func i st)).
Proof.
  intros i st.
  assert (Hb : browser st = Some 0) by (vm_compute; reflexivity).
  assert (Hv : next_answer st = Returns None) by (vm_compute; reflexivity).
  destruct (proj2 (close_idempotent i st eq_refl) 0 None Hb Hv)
    as (_ & H1 & _ & _ & _ & _ & _ & H2).
  repeat split; assumption.
Defined.

(** * Further properties *)

(** ** Actions that leave the session alone *)

(** X1.  An action other than snapshot and close never changes the ref
    table: the table of the last snapshot stays in force across navigate,
    open, act and read, whatever the driver answers. *)
Theorem refs_kept_by_other_actions :
  forall (i : input) (st : state),
    action_of i <> snapshot -> action_of i <> close ->
    currentRefs (snd (func i st)) = currentRefs st.
Proof.
  intros i st Hs Hc. run. destruct i as [a u mc r].
  cbn [action_of url maxChars request] in *.
  destruct a; try contradiction; run_pure; reflexivity.
Qed.

(** X2.  While a browser is held, an action other than close keeps it and
    closes no page; when a page is active as well, an action other than
    open and close keeps the active page and the list of open pages as they
    are. *)
Theorem session_kept_by_other_actions :
  forall (i : input) (st : state) (b : Browser),
    action_of i <> close -> browser st = Some b ->
    let st' := snd (func i st) in
    browser st' = Some b
    /\ (forall p, In p (open_pages st) -> In p (open_pages st'))
    /\ (forall p, action_of i <> open -> page st = Some p ->
                  page st' = Some p /\ open_pages st' = open_pages st).
Proof.
  intros i st b Hc Hb. run. destruct i as [a u mc r].
  cbn [action_of url maxChars request] in *.
  destruct a; try contradiction; run_pure;
    repeat split; intros; cbn; try congruence; auto;
    try (right; auto; fail); try (right; right; auto; fail).
Qed.

(** ** Lazy initialisation *)

(** X3.  Once ensureBrowser has returned a page, calling it again returns
    the same page and changes nothing: no driver call, no answer consumed. *)
Theorem ensureBrowser_idempotent :
  forall (st st' : state) (p : Page),
    ensureBrowser st = (Val p, st') ->
    ensureBrowser st' = (Val p, st').
Proof.
  intros st st' p H.
  assert (E : browser st' <> None /\ page st' = Some p).
  { revert H. unfold ensureBrowser, launch, newContext, newPage, bind, get,
      modify, ret, driver, answer, next_answer.
    run_pure; intros H; inversion H; subst; cbn; split; congruence. }
  destruct E as [Hb Hp].
  unfold ensureBrowser, bind, get, ret.
  destruct (browser st') as [b|]; [|contradiction]. now rewrite Hp.
Qed.

(** X4.  While a browser is held no invocation launches another one; and on
    an active session (browser and page) only open creates a driver object,
    every other action creating neither browser, context nor page. *)
Theorem lazy_initialisation :
  forall (i : input) (st : state) (b : Browser),
    browser st = Some b ->
    exists new,
      calls (snd (func i st)) = calls st ++ new
      /\ ~ In Launch new
      /\ (forall p, page st = Some p -> action_of i <> open ->
                    forallb (fun c => negb (is_creation c)) new = true).
Proof.
  intros i st b Hb. run. destruct i as [a u mc r].
  cbn [action_of url maxChars request] in *.
  destruct a; run_pure; try congruence;
    rewrite <- ?app_assoc; cbn [app];
    first [ exists []; split; [symmetry; apply app_nil_r | split; [tauto|reflexivity] ]
          | eexists; split; [reflexivity | split; [cbn; intuition discriminate|]];
            intros; cbn; first [reflexivity | congruence] ].
Qed.

(** X5.  On the uninitialised session: when the launch throws, nothing is
    kept and the failure is the driver's message; when the launch succeeds
    and newContext throws, the launched browser is kept with no page, and
    the next ensureBrowser reuses it: it creates a context and a page and
    does not launch. *)
Theorem ensureBrowser_failures :
  forall st : state,
    browser st = None -> page st = None ->
    (forall m, next_answer st = Throws m ->
       fst (ensureBrowser st) = Exn m
       /\ browser (snd (ensureBrowser st)) = None
       /\ page (snd (ensureBrowser st)) = None
       /\ open_browsers (snd (ensureBrowser st)) = open_browsers st
       /\ calls (snd (ensureBrowser st)) = calls st ++ [Launch])
    /\ (forall v m rest, env st = Returns v :: Throws m :: rest ->
          let st1 := snd (ensureBrowser st) in
          let b := next_id st in
          fst (ensureBrowser st) = Exn m
          /\ browser st1 = Some b /\ page st1 = None
          /\ open_browsers st1 = b :: open_browsers st
          /\ calls st1 = calls st ++ [Launch; NewContext b]
          /\ forall v2 v3 rest',
               rest = Returns v2 :: Returns v3 :: rest' ->
               let c := {| ctx_id := S b; ctx_browser := b |} in
               let p := {| page_id := S (S b); context := c |} in
               fst (ensureBrowser st1) = Val p
               /\ browser (snd (ensureBrowser st1)) = Some b
               /\ calls (snd (ensureBrowser st1))
                  = calls st1 ++ [NewContext b; NewPage c]).
Proof.
  intros st Hb Hp.
  unfold ensureBrowser, launch, newContext, newPage, bind, get, modify, ret,
    driver, answer, next_answer.
  rewrite Hb. cbn. split.
  - intros m Hm. rewrite Hm. cbn. repeat split; assumption.
  - intros v m rest He. rewrite He. cbn. rewrite Hp. cbn.
    rewrite <- app_assoc. repeat split.
    all: subst rest; cbn; rewrite <- ?app_assoc; reflexivity.
Qed.

(** ** Failures and edge cases of the actions *)

(** X6.  When browser.close() throws, close returns the prefixed error and
    the session is left as it was: browser, page, ref table and open
    objects are unchanged, so the close can be tried again. *)
Theorem close_failure_keeps_session :
  forall (i : input) (st : state) (b : Browser) (m : jsstring),
    action_of i = close -> browser st = Some b ->
    next_answer st = Throws m ->
    let st' := snd (func i st) in
    fst (func i st) = PError (js "[Browser (Playwright)] " ++ m)
    /\ browser st' = Some b /\ page st' = page st
    /\ currentRefs st' = currentRefs st
    /\ open_browsers st' = open_browsers st
    /\ open_pages st' = open_pages st
    /\ calls st' = calls st ++ [BrowserClose b].
Proof.
  intros i st b m Ha Hb Hm. run. rewrite Ha. cbn. rewrite Hb. cbn.
  rewrite Hm. cbn. repeat split; assumption.
Qed.

(** X7.  On an active session, once the click (or the key press) itself
    succeeds, the action returns its success payload whatever the
    network-idle wait that follows answers: a failure of that wait is
    swallowed, and the two driver calls are the interaction and the wait. *)
Theorem settle_wait_is_swallowed :
  forall (i : input) (r : actRequest) (st : state) (b : Browser) (p : Page)
         (v : option jsstring) (w : response) (rest : list response),
    action_of i = act -> request i = Some r ->
    browser st = Some b -> page st = Some p ->
    env st = Returns v :: w :: rest ->
    let st' := snd (func i st) in
    (forall x, kind r = click -> ref r = Some x -> truthy x = true ->
       fst (func i st) = PClicked x CLICK_HINT
       /\ calls st'
          = calls st ++ [Click (resolveRefToLocator (currentRefs st) p x);
                         WaitForLoadState p 10000]
       /\ env st' = rest)
    /\ (forall k, kind r = press -> key r = Some k -> truthy k = true ->
          fst (func i st) = PPressed k
          /\ calls st'
             = calls st ++ [KeyboardPress p k; WaitForLoadState p 5000]
          /\ env st' = rest).
Proof.
  intros i r st b p v w rest Ha Hr Hb Hp He. run.
  rewrite Ha, Hr. cbn. rewrite Hb. cbn. rewrite Hp. cbn. split.
  - intros x Hk Hx Ht. rewrite Hk, Hx. cbn. rewrite Ht. cbn. rewrite He. cbn.
    destruct w; cbn; rewrite <- app_assoc; repeat split.
  - intros k Hk Hx Ht. rewrite Hk, Hx. cbn. rewrite Ht. cbn. rewrite He. cbn.
    destruct w; cbn; rewrite <- app_assoc; repeat split.
Qed.

(** X8.  When the goto of open throws, the error is returned and the active
    page is still the previous one, although the page that open created
    stays open in the driver. *)
Theorem open_goto_failure_leaves_page :
  forall (i : input) (st : state) (b : Browser) (p : Page) (u : jsstring)
         (v : option jsstring) (m : jsstring) (rest : list response),
    action_of i = open -> url i = Some u -> truthy u = true ->
    browser st = Some b -> page st = Some p ->
    env st = Returns v :: Throws m :: rest ->
    let st' := snd (func i st) in
    let np := {| page_id := next_id st; context := context p |} in
    fst (func i st) = PError (js "[Browser (Playwright)] " ++ m)
    /\ page st' = Some p
    /\ open_pages st' = np :: open_pages st
    /\ calls st' = calls st ++ [NewPage (context p); Goto np u].
Proof.
  intros i st b p u v m rest Ha Hu Ht Hb Hp He. run.
  rewrite Ha, Hu. cbn. rewrite Ht. cbn. rewrite Hb. cbn. rewrite Hp. cbn.
  rewrite He. cbn. rewrite <- app_assoc. repeat split. assumption.
Qed.

(** X9.  On an active session an act request that lacks a required field
    (absent or empty string) returns the error naming the field and leaves
    the whole state unchanged, with no driver call: ref for click, hover and
    type, text for type once ref is given, key for press. *)
Theorem missing_field_messages :
  forall (i : input) (r : actRequest) (st : state) (b : Browser) (p : Page),
    action_of i = act -> request i = Some r ->
    browser st = Some b -> page st = Some p ->
    (kind r = click -> present (ref r) = false ->
       func i st = (PError (js "ref is required for click"), st))
    /\ (kind r = hover -> present (ref r) = false ->
          func i st = (PError (js "ref is required for hover"), st))
    /\ (kind r = type -> present (ref r) = false ->
          func i st = (PError (js "ref is required for type"), st))
    /\ (kind r = type -> present (ref r) = true -> present (text r) = false ->
          func i st = (PError (js "text is required for type"), st))
    /\ (kind r = press -> present (key r) = false ->
          func i st = (PError (js "key is required for press"), st)).
Proof.
  intros i r st b p Ha Hr Hb Hp.
  unfold func, func_body, ensureBrowser, act_body, bind, get, ret.
  rewrite Ha, Hr. cbn. rewrite Hb, Hp.
  repeat split; intros Hk; rewrite Hk; intros H; rewrite H;
    try (intros H'; rewrite H'); reflexivity.
Qed.

(** X10.  The wait action pauses for min(timeMs ?? 2000, 10000): never more
    than 10000, 2000 by default, and exactly timeMs when timeMs <= 10000
    (there is no lower bound); the payload reports the same number. *)
Theorem wait_is_clamped :
  forall (i : input) (r : actRequest) (st : state) (b : Browser) (p : Page)
         (v : option jsstring),
    action_of i = act -> request i = Some r -> kind r = wait ->
    browser st = Some b -> page st = Some p ->
    next_answer st = Returns v ->
    let w := Z.min (match timeMs r with Some t => t | None => 2000 end)
                   10000 in
    fst (func i st) = PWaited w
    /\ calls (snd (func i st)) = calls st ++ [WaitForTimeout p w]
    /\ (w <= 10000)%Z
    /\ (timeMs r = None -> w = 2000%Z)
    /\ (forall t, timeMs r = Some t -> (t <= 10000)%Z -> w = t).
Proof.
  intros i r st b p v Ha Hr Hk Hb Hp Hv w. run.
  rewrite Ha, Hr. cbn. rewrite Hb. cbn. rewrite Hp. cbn. rewrite Hk. cbn.
  rewrite Hv. cbn. repeat split.
  - subst w. lia.
  - intros E. subst w. rewrite E. reflexivity.
  - intros t E Ht. subst w. rewrite E. lia.
Qed.

(** ** Truncation and parsing *)

(** X11.  For every limit K, negative ones included: truncated is true
    exactly when the text is longer than K; the text is returned unchanged
    when it is not; when 0 <= K < L the first K characters are kept and when
    K < 0 the first L + K characters (none if that is negative), followed by
    the marker. *)
Theorem truncate_keeps_a_prefix :
  forall (text : jsstring) (mc : option Z),
    let L := Z.of_nat (length text) in
    let K := limit_of mc in
    snd (truncate text mc) = (L >? K)%Z
    /\ ((L <= K)%Z -> fst (truncate text mc) = text)
    /\ ((0 <= K < L)%Z ->
          fst (truncate text mc)
          = firstn (Z.to_nat K) text ++ TRUNCATION_MARKER)
    /\ ((K < 0)%Z ->
          fst (truncate text mc)
          = firstn (Z.to_nat (L + K)) text ++ TRUNCATION_MARKER).
Proof.
  intros text mc L K. unfold truncate. fold (limit_of mc). fold K. fold L.
  destruct (Z.gtb_spec L K) as [Hgt|Hle]; cbn [fst snd].
  - split; [reflexivity|]. split; [lia|]. unfold slice0. fold L. split.
    + intros H. destruct (Z.ltb_spec K 0); [lia|]. now rewrite Z.min_l by lia.
    + intros H. destruct (Z.ltb_spec K 0); [|lia].
      destruct (Z.max_spec (L + K) 0) as [[Hlt ->]|[Hge ->]]; [|reflexivity].
      replace (Z.to_nat (L + K)) with 0 by lia. reflexivity.
  - split; [reflexivity|]. split; [reflexivity|]. split; intros; lia.
Qed.

Lemma parse_lines_keys_grow (lines : list jsstring) (refs : RefMap)
      (k : jsstring) :
  In k (map_keys refs) -> In k (map_keys (fold_left parse_line lines refs)).
Proof.
  revert refs. induction lines as [|l lines IH]; intros refs H; cbn.
  - exact H.
  - apply IH. rewrite parse_line_unfold.
    destruct (re_match ref_re l); [|exact H].
    apply map_keys_set. now right.
Qed.

(** X12.  Parsing works line by line: the table of [a] followed by a line
    feed and [b] is the table of [a] extended by the lines of [b], so
    appending text never removes a key. *)
Theorem parse_appended_lines :
  forall a b : jsstring,
    parseRefsFromSnapshot (a ++ LF :: b)
    = fold_left parse_line (split LF b) (parseRefsFromSnapshot a)
    /\ (forall k, In k (map_keys (parseRefsFromSnapshot a)) ->
                  In k (map_keys (parseRefsFromSnapshot (a ++ LF :: b)))).
Proof.
  intros a b.
  assert (E : parseRefsFromSnapshot (a ++ LF :: b)
              = fold_left parse_line (split LF b) (parseRefsFromSnapshot a)).
  { unfold parseRefsFromSnapshot. now rewrite split_app_sep, fold_left_app. }
  split; [exact E|]. intros k Hk. rewrite E. now apply parse_lines_keys_grow.
Qed.

Lemma parse_lines_key_iff (lines : list jsstring) (refs : RefMap)
      (r : jsstring) :
  In r (map_keys (fold_left parse_line lines refs))
  <-> In r (map_keys refs)
      \/ exists line, In line lines /\ first_ref_marker line r.
Proof.
  revert refs. induction lines as [|l lines IH]; intros refs; cbn.
  - split; [now left | intros [H|(line & [] & _)]; exact H].
  - rewrite IH, parse_line_unfold.
    destruct (re_match ref_re l) as [r'|] eqn:E.
    + rewrite map_keys_set. split.
      * intros [[->|H]|(line & Hin & Hr)].
        -- right. exists l. split; [now left | now apply ref_re_some].
        -- now left.
        -- right. exists line. split; [now right | exact Hr].
      * intros [H|(line & [<-|Hin] & Hr)].
        -- left. now right.
        -- left. left. apply ref_re_some in Hr. congruence.
        -- right. now exists line.
    + split.
      * intros [H|(line & Hin & Hr)]; [now left|].
        right. exists line. split; [now right | exact Hr].
      * intros [H|(line & [<-|Hin] & Hr)]; [now left| |].
        -- apply ref_re_some in Hr. congruence.
        -- right. now exists line.
Qed.

Lemma map_get_some_iff (m : RefMap) (r : jsstring) :
  map_get m r <> None <-> In r (map_keys m).
Proof.
  split.
  - intros H.
    destruct (in_dec (list_eq_dec N.eq_dec) r (map_keys m)) as [Hin|Hn];
      [exact Hin|]. apply map_get_none in Hn. contradiction.
  - intros H E. apply map_get_none in E. contradiction.
Qed.

(** X13.  A ref id has an entry in the parsed table exactly when it is the
    ref (leftmost marker) of some line of the text; the table is empty
    exactly when no line contains a marker. *)
Theorem key_iff_ref_of_a_line :
  forall (text r : jsstring),
    (map_get (parseRefsFromSnapshot text) r <> None
     <-> exists line, In line (split LF text) /\ first_ref_marker line r)
    /\ (parseRefsFromSnapshot text = []
        <-> forall line, In line (split LF text) -> no_ref_marker line).
Proof.
  intros text r. split.
  - rewrite map_get_some_iff. unfold parseRefsFromSnapshot.
    rewrite parse_lines_key_iff. cbn. split; [intros [[]|H]; exact H | now right].
  - split.
    + intros E line Hin. apply ref_re_none.
      destruct (re_match ref_re line) as [k|] eqn:M; [|reflexivity].
      exfalso. apply ref_re_some in M.
      assert (H : In k (map_keys (parseRefsFromSnapshot text))).
      { unfold parseRefsFromSnapshot. apply parse_lines_key_iff.
        right. now exists line. }
      rewrite E in H. exact H.
    + intros Hall.
      destruct (parseRefsFromSnapshot text) as [|[k v] m] eqn:E;
        [reflexivity|]. exfalso.
      assert (H : In k (map_keys (parseRefsFromSnapshot text))).
      { rewrite E. now left. }
      unfold parseRefsFromSnapshot in H. apply parse_lines_key_iff in H.
      destruct H as [[]|(line & Hin & Hr)].
      apply ref_re_some in Hr. specialize (Hall line Hin).
      apply ref_re_none in Hall. congruence.
Qed.

(** X14.  Every entry of a parsed table is well formed: its key is e
    followed by digits, its role is a non-empty string of word characters,
    and its name, when present, is non-empty and contains no double quote. *)
Theorem parsed_entries_are_well_formed :
  forall (text k : jsstring) (e : RefData),
    map_get (parseRefsFromSnapshot text) k = Some e ->
    is_ref_id k
    /\ role e <> [] /\ all_of is_word (role e)
    /\ match name e with
       | Some n => n <> [] /\ ~ In DQUOTE n
       | None => True
       end.
Proof.
  intros text k e Hget.
  assert (Hok : table_ok (parseRefsFromSnapshot text)).
  { apply parse_lines_table_ok. split; [constructor | intros ? []]. }
  split.
  { apply Hok. apply map_get_some_iff. congruence. }
  revert Hget. unfold parseRefsFromSnapshot.
  assert (H0 : forall k e, map_get [] k = Some e ->
             role e <> [] /\ all_of is_word (role e)
             /\ match name e with
                | Some n => n <> [] /\ ~ In DQUOTE n
                | None => True
                end) by (intros ? ? H; discriminate H).
  revert H0. generalize (@nil (jsstring * RefData)) as refs.
  induction (split LF text) as [|l lines IH]; intros refs H0 Hget; cbn in Hget.
  - now apply (H0 k).
  - apply (IH (parse_line refs l)); [|exact Hget].
    intros k' e' Hg. rewrite parse_line_unfold in Hg.
    destruct (re_match ref_re l) as [r|]; [|now apply (H0 k')].
    apply map_get_set_inv in Hg. destruct Hg as [[_ ->]|Hg];
      [|now apply (H0 k')].
    unfold line_entry. cbn [role name]. split; [|split].
    + destruct (re_match role_re l) as [w|] eqn:E; [|discriminate].
      apply role_re_some in E.
      destruct E as (? & ? & ? & _ & _ & _ & Hne & _). exact Hne.
    + destruct (re_match role_re l) as [w|] eqn:E; [|reflexivity].
      apply role_re_some in E.
      destruct E as (? & ? & ? & _ & _ & _ & _ & Hw & _). exact Hw.
    + destruct (re_match name_re l) as [x|] eqn:E; [|exact I].
      apply name_re_some in E. apply first_occurrence_is_group in E.
      destruct E as (run & -> & Hne & Hall). cbn [app]. split; [exact Hne|].
      intros Hin. unfold all_of in Hall. rewrite forallb_forall in Hall.
      apply Hall in Hin. cbn in Hin. discriminate.
Qed.

(** X15.  In every reachable state the active page, if any, is an open page
    of the browser held, which is itself open; ids of open pages are below
    the next fresh id; and the keys of the ref table are pairwise distinct
    ref ids. *)
Theorem reachable_session_is_sound :
  forall st : state,
    reachable st ->
    (forall p, page st = Some p ->
       In p (open_pages st)
       /\ browser st = Some (ctx_browser (context p))
       /\ In (ctx_browser (context p)) (open_browsers st))
    /\ (forall p, In p (open_pages st) -> page_id p < next_id st)
    /\ NoDup (map_keys (currentRefs st))
    /\ (forall k, In k (map_keys (currentRefs st)) -> is_ref_id k).
Proof.
  intros st H. apply reachable_consistent in H.
  destruct H as (_ & Hp & Hb & Hid & text & Ht).
  assert (Hok : table_ok (currentRefs st)).
  { rewrite Ht. apply parse_lines_table_ok. split; [constructor | intros ? []]. }
  split; [|split; [exact Hid | exact Hok]].
  intros p E. destruct (Hp p E) as [Hin Hbr]. repeat split; auto.
Qed.


(** ** Tool registry *)

Ltac registry_cases env skills :=
  unfold getTools, getToolRegistry;
  destruct (present (EXASEARCH_API_KEY env));
  destruct (present (PERPLEXITY_API_KEY env));
  destruct (present (TAVILY_API_KEY env));
  destruct skills; cbn -[js].

(** X16.  Whatever the environment and the skills found, the names of the
    registry are pairwise distinct, the first eight are the fixed tools in
    their order (the browser tool among them) and there are between eight
    and ten entries. *)
Theorem registry_names_are_unique :
  forall (D : descriptions) (Skill : Type) (env : process_env)
         (skills : list Skill) (model : jsstring),
    let names := map rt_name (getToolRegistry D env skills model) in
    NoDup names
    /\ firstn 8 names
       = [js "financial_search"; js "financial_metrics"; js "read_filings";
          js "web_fetch"; js "browser"; js "read_file"; js "write_file";
          js "edit_file"]
    /\ 8 <= length names <= 10.
Proof.
  intros D Skill env skills model names. subst names.
  registry_cases env skills;
    (split; [|split; [reflexivity | cbn; lia]]);
    repeat (constructor; [cbn; intuition discriminate|]); constructor.
Qed.

(** X17.  An entry named web_search is registered exactly when one of the
    three API keys is set (non-empty), and its tool is the first provider
    configured in the order Exa, Perplexity, Tavily. *)
Theorem web_search_provider_priority :
  forall (D : descriptions) (Skill : Type) (env : process_env)
         (skills : list Skill) (model : jsstring) (t : RegisteredTool),
    (In t (getToolRegistry D env skills model) /\ rt_name t = js "web_search")
    <-> web_search_provider env
        = Some (rt_tool t)
        /\ t = {| rt_name := js "web_search"; rt_tool := rt_tool t;
                  rt_description := WEB_SEARCH_DESCRIPTION D |}.
Proof.
  intros D Skill env skills model t. unfold web_search_provider. split.
  - intros [Hin Hn]. revert Hin.
    registry_cases env skills; intros Hin;
      repeat (destruct Hin as [<-|Hin]; [try discriminate Hn|]);
      try contradiction; split; reflexivity.
  - intros [Hp Et].
    assert (Hn : rt_name t = js "web_search") by (rewrite Et; reflexivity).
    split; [|exact Hn]. rewrite Et. clear Et Hn. revert Hp.
    registry_cases env skills; intros Hp; try discriminate Hp;
      injection Hp as <-; tauto.
Qed.


Lemma join_contains (sep : jsstring) (parts : list jsstring) (x : jsstring) :
  In x parts -> exists before after, join sep parts = before ++ x ++ after.
Proof.
  induction parts as [|y l IH]; [intros []|].
  intros [<-|Hin].
  - destruct l as [|z l']; [exists [], []; cbn; now rewrite app_nil_r|].
    exists [], (sep ++ join sep (z :: l')). reflexivity.
  - destruct (IH Hin) as (before & after & E).
    destruct l as [|z l']; [destruct Hin|].
    exists (y ++ sep ++ before), after.
    change (join sep (y :: z :: l')) with (y ++ sep ++ join sep (z :: l')).
    rewrite E, <- !app_assoc. reflexivity.
Qed.

(** X18.  getTools lists the tools of the registry: the browser tool always,
    the skill tool exactly when a skill was discovered; and the text of
    buildToolDescriptions contains, for every registered tool, its section:
    the header ### name, a blank line and its description. *)
Theorem registry_tools_and_sections :
  forall (D : descriptions) (Skill : Type) (env : process_env)
         (skills : list Skill) (model : jsstring),
    In browserTool (getTools D env skills model)
    /\ (In skillTool (getTools D env skills model) <-> skills <> [])
    /\ length (getTools D env skills model)
       = length (getToolRegistry D env skills model)
    /\ (forall t, In t (getToolRegistry D env skills model) ->
          exists before after,
            buildToolDescriptions D env skills model
            = before ++ (js "### " ++ rt_name t ++ [LF; LF]
                         ++ rt_description t) ++ after).
Proof.
  intros D Skill env skills model. split; [|split; [|split]].
  - registry_cases env skills; tauto.
  - registry_cases env skills; split; intros H; try discriminate;
      try tauto; try (exfalso; now apply H);
      repeat (destruct H as [H|H]; [discriminate H|]); destruct H.
  - unfold getTools. apply length_map.
  - intros t Hin. unfold buildToolDescriptions. apply join_contains.
    apply in_map_iff. now exists t.
Qed.

(** ** stripFieldsDeep *)

Lemma has_app (f g : list jsstring) (k : jsstring) :
  has (g ++ f) k = has g k || has f k.
Proof. unfold has. apply existsb_app. Qed.

Lemma clean_length (number : Type) (f : jsvalue number -> jsvalue number)
      (fields : list jsstring) (es : list (jsstring * jsvalue number)) :
  length (clean f fields es) <= length es.
Proof.
  induction es as [|[k c] es IH]; cbn [clean length]; [lia|].
  destruct (has fields k); [lia|].
  destruct (jsstring_eqb k PROTO); cbn [length]; lia.
Qed.

Lemma walk_keeps_only_kept (number : Type) (fields : list jsstring)
      (v : jsvalue number) :
  every_key (kept fields) (walk fields v) = true.
Proof.
  induction v as [| | | | |items IH|entries IH] using jsvalue_nested_ind;
    try reflexivity.
  - cbn. rewrite forallb_forall. intros x Hx. apply in_map_iff in Hx.
    destruct Hx as (y & <- & Hy). rewrite Forall_forall in IH. now apply IH.
  - cbn [walk every_key].
    induction IH as [|[k c] es Hc _ IHes]; [reflexivity|].
    cbn [clean]. cbn in Hc.
    destruct (has fields k) eqn:Hk; [exact IHes|].
    destruct (jsstring_eqb k PROTO) eqn:Hp; [exact IHes|].
    cbn [forallb fst snd]. unfold kept at 1. rewrite Hk, Hp, Hc. exact IHes.
Qed.

(** X19.  In the value that stripFieldsDeep returns no own key, at any depth
    of objects and arrays, is one of the fields to strip (nor is it
    __proto__, which the copy never creates as an own key). *)
Theorem strip_removes_fields :
  forall (number : Type) (fields : list jsstring) (v : jsvalue number),
    every_key (kept fields) (stripFieldsDeep v fields) = true.
Proof. intros number fields v. apply walk_keeps_only_kept. Qed.

Lemma walk_compose (number : Type) (f g : list jsstring)
      (v : jsvalue number) :
  walk f (walk g v) = walk (g ++ f) v.
Proof.
  induction v as [| | | | |items IH|entries IH] using jsvalue_nested_ind;
    try reflexivity.
  - cbn. f_equal. rewrite map_map. apply map_ext_in.
    intros x Hx. rewrite Forall_forall in IH. now apply IH.
  - cbn [walk]. f_equal.
    induction IH as [|[k c] es Hc _ IHes]; [reflexivity|].
    cbn [clean]. cbn in Hc. rewrite has_app.
    destruct (has g k) eqn:Hg; cbn [orb]; [exact IHes|].
    destruct (jsstring_eqb k PROTO) eqn:Hp.
    + destruct (has f k); exact IHes.
    + cbn [clean]. destruct (has f k) eqn:Hf; [exact IHes|].
      rewrite Hp, Hc. f_equal. exact IHes.
Qed.

Lemma walk_twice (number : Type) (f : list jsstring) (v : jsvalue number) :
  walk (f ++ f) v = walk f v.
Proof.
  induction v as [| | | | |items IH|entries IH] using jsvalue_nested_ind;
    try reflexivity.
  - cbn. f_equal. apply map_ext_in.
    intros x Hx. rewrite Forall_forall in IH. now apply IH.
  - cbn [walk]. f_equal.
    induction IH as [|[k c] es Hc _ IHes]; [reflexivity|].
    cbn [clean]. cbn in Hc. rewrite has_app, orb_diag.
    destruct (has f k); [exact IHes|].
    destruct (jsstring_eqb k PROTO); [exact IHes|].
    rewrite Hc. f_equal. exact IHes.
Qed.

(** X20.  Stripping the fields g and then the fields f is stripping g and f
    at once, and stripping the same fields twice changes nothing more. *)
Theorem strip_composes :
  forall (number : Type) (f g : list jsstring) (v : jsvalue number),
    stripFieldsDeep (stripFieldsDeep v g) f = stripFieldsDeep v (g ++ f)
    /\ stripFieldsDeep (stripFieldsDeep v f) f = stripFieldsDeep v f.
Proof.
  intros number f g v. unfold stripFieldsDeep.
  split; [apply walk_compose|]. now rewrite walk_compose, walk_twice.
Qed.

(** X21.  stripFieldsDeep returns a value equal to its argument exactly when
    the argument has, at no depth, an own key that is a field to strip or
    __proto__; primitives in particular are returned as they are. *)
Theorem strip_fixpoint :
  forall (number : Type) (fields : list jsstring) (v : jsvalue number),
    stripFieldsDeep v fields = v <-> every_key (kept fields) v = true.
Proof.
  intros number fields v. unfold stripFieldsDeep.
  induction v as [| | | | |items IH|entries IH] using jsvalue_nested_ind;
    try (cbn; split; reflexivity).
  - cbn. split.
    + intros E. injection E as E.
      induction IH as [|y l Hy _ IHl]; [reflexivity|].
      cbn in E. injection E as E1 E2. cbn.
      apply Hy in E1. rewrite E1. now apply IHl.
    + intros H. f_equal.
      induction IH as [|y l Hy _ IHl]; [reflexivity|].
      cbn in H. apply andb_true_iff in H. destruct H as [H1 H2].
      cbn. apply Hy in H1. rewrite H1. f_equal. now apply IHl.
  - cbn [walk every_key]. split.
    + intros E. injection E as E.
      induction IH as [|[k c] es Hc _ IHes]; [reflexivity|].
      cbn [clean] in E. cbn in Hc.
      pose proof (clean_length (walk fields) fields es) as Hlen.
      destruct (has fields k) eqn:Hk.
      { exfalso. apply (f_equal (@length _)) in E. cbn in E. lia. }
      destruct (jsstring_eqb k PROTO) eqn:Hp.
      { exfalso. apply (f_equal (@length _)) in E. cbn in E. lia. }
      injection E as E1 E2. cbn [forallb fst snd].
      unfold kept at 1. rewrite Hk, Hp. apply Hc in E1. rewrite E1.
      now apply IHes.
    + intros H. f_equal.
      induction IH as [|[k c] es Hc _ IHes]; [reflexivity|].
      cbn in Hc. cbn [forallb fst snd] in H.
      apply andb_true_iff in H. destruct H as [H1 H2].
      apply andb_true_iff in H1. destruct H1 as [Hkept Hck].
      unfold kept in Hkept. apply andb_true_iff in Hkept.
      destruct Hkept as [Hk Hp]. apply negb_true_iff in Hk, Hp.
      cbn [clean]. rewrite Hk, Hp. apply Hc in Hck. rewrite Hck.
      f_equal. now apply IHes.
Qed.

(** ** callApi *)

Section ApiProperties.
Variable number : Type.
Variable describeRequest : jsstring -> params number -> jsstring.
Variable String_of_number : number -> jsstring.
Variable url_toString : jsstring -> list (jsstring * jsstring) -> jsstring.

Let api := callApi describeRequest String_of_number url_toString.

Lemma callApi_uncached_trace (e : api_env number) (endpoint : jsstring)
      (ps : params number) :
  existsb (@is_cache_event number) (fst (api e endpoint ps false)) = false.
Proof.
  subst api. unfold callApi.
  destruct (present (FINANCIAL_DATASETS_API_KEY e));
    destruct (fetched e) as [m|resp]; cbn;
    try destruct (ok resp); cbn; try destruct (json resp); reflexivity.
Qed.

Lemma callApi_fresh_result (e : api_env number) (endpoint : jsstring)
      (ps : params number) (r : ApiResponse number) :
  snd (api e endpoint ps false) = Val r ->
  response_url r
  = url_toString (BASE_URL ++ endpoint) (searchParams String_of_number ps)
  /\ exists resp, fetched e = FetchReturns resp
                  /\ ok resp = true /\ json resp = Some (data r).
Proof.
  subst api. unfold callApi.
  destruct (present (FINANCIAL_DATASETS_API_KEY e));
    destruct (fetched e) as [m|resp]; cbn -[app js API_PREFIX BASE_URL];
    try (destruct (ok resp) eqn:Hok; cbn -[app js API_PREFIX BASE_URL];
         try (destruct (json resp) eqn:Hj;
              cbn -[app js API_PREFIX BASE_URL]));
    intros H; try discriminate H; injection H as <-;
    (split; [reflexivity|]); exists resp; cbn; auto.
Qed.

(** X22.  callApi and the local cache: a call that is not cacheable neither
    reads nor writes the cache; a cacheable call whose entry is cached
    returns that entry after the one read, without request, warning or
    write; and the cache is written only by a cacheable call that missed
    the cache and succeeded, with the endpoint and params of the call and
    exactly the data and url that the call returns. *)
Theorem api_cache_discipline :
  forall (e : api_env number) (endpoint : jsstring) (ps : params number)
         (cacheable : bool),
    let t := fst (api e endpoint ps cacheable) in
    let r := snd (api e endpoint ps cacheable) in
    (cacheable = false -> existsb (@is_cache_event number) t = false)
    /\ (forall c, cacheable = true -> cached e = Some c ->
          t = [ReadCache endpoint ps] /\ r = Val c)
    /\ (forall ep ps' d u, In (WriteCache ep ps' d u) t ->
          cacheable = true /\ cached e = None
          /\ ep = endpoint /\ ps' = ps
          /\ r = Val {| data := d; response_url := u |}).
Proof.
  intros e endpoint ps cacheable t r. subst t r api. unfold callApi.
  destruct cacheable; cbn [fst snd].
  - split; [discriminate|]. split.
    + intros c _ Hc. rewrite Hc. cbn. auto.
    + intros ep ps' d u.
      destruct (cached e) as [c|]; cbn.
      { intros [H|[]]. discriminate H. }
      destruct (present (FINANCIAL_DATASETS_API_KEY e));
        destruct (fetched e) as [m|resp]; cbn;
        try destruct (ok resp); cbn; try destruct (json resp); cbn;
        rewrite ?in_app_iff; cbn;
        intuition (try discriminate);
        match goal with
        | H : WriteCache _ _ _ _ = WriteCache _ _ _ _ |- _ =>
            injection H as <- <- <- <-; auto
        end.
  - split.
    + intros _.
      destruct (present (FINANCIAL_DATASETS_API_KEY e));
        destruct (fetched e) as [m|resp]; cbn;
        try destruct (ok resp); cbn; try destruct (json resp); reflexivity.
    + split; [discriminate|].
      intros ep ps' d u.
      destruct (present (FINANCIAL_DATASETS_API_KEY e));
        destruct (fetched e) as [m|resp]; cbn;
        try destruct (ok resp); cbn; try destruct (json resp); cbn;
        intuition discriminate.
Qed.
Ltac api_cases e :=
  destruct (cached e) as [?c|];
  destruct (present (FINANCIAL_DATASETS_API_KEY e));
  destruct (fetched e) as [?m|?resp]; cbn -[app js API_PREFIX];
  try match goal with resp : Response _ |- _ =>
        destruct (ok resp); cbn -[app js API_PREFIX];
        try (destruct (json resp); cbn -[app js API_PREFIX]) end.

(** X23.  Every failure of callApi carries a message that starts with
    [Financial Datasets API] request failed, is logged as an error as the
    last thing the call does, and leaves the cache unwritten. *)
Theorem api_failures_are_reported :
  forall (e : api_env number) (endpoint : jsstring) (ps : params number)
         (cacheable : bool) (m : jsstring),
    snd (api e endpoint ps cacheable) = Exn m ->
    exists detail message t',
      m = js "[Financial Datasets API] request failed" ++ detail
      /\ fst (api e endpoint ps cacheable) = t' ++ [LogError message]
      /\ existsb (@is_write number) (fst (api e endpoint ps cacheable))
         = false.
Proof.
  intros e endpoint ps cacheable m. subst api. unfold callApi.
  destruct cacheable; api_cases e; intros H; try discriminate H;
    injection H as <-;
    (eexists; eexists; eexists; split;
     [ reflexivity
     | split; [reflexivity | rewrite ?existsb_app; reflexivity] ]).
Qed.
(** X24.  callApi sends no request on a cache hit and exactly one
    otherwise, to the base URL plus the endpoint with the search parameters
    of the params (undefined values skipped, arrays expanded), with the API
    key as x-api-key header, empty when no key is set; it warns exactly when
    it sends a request without key; and a result that did not come from the
    cache carries the requested url and the JSON body of an ok response. *)
Theorem api_requests_once :
  forall (e : api_env number) (endpoint : jsstring) (ps : params number)
         (cacheable : bool),
    let t := fst (api e endpoint ps cacheable) in
    let url := url_toString (BASE_URL ++ endpoint)
                            (searchParams String_of_number ps) in
    let key := FINANCIAL_DATASETS_API_KEY e in
    let hit :=
      cacheable && match cached e with Some _ => true | None => false end in
    filter (@is_fetch number) t
    = (if hit then []
       else [Fetch url (if present key then text_of key else [])])
    /\ (forall message, In (LogWarn message) t <->
          hit = false /\ present key = false
          /\ message = js "[Financial Datasets API] call without key: "
                       ++ describeRequest endpoint ps)
    /\ (forall r, hit = false ->
          snd (api e endpoint ps cacheable) = Val r ->
          response_url r = url
          /\ exists resp, fetched e = FetchReturns resp
                          /\ ok resp = true /\ json resp = Some (data r)).
Proof.
  intros e endpoint ps cacheable t url key hit.
  subst t url key hit api. unfold callApi.
  destruct cacheable; cbn [andb];
    destruct (cached e) as [c|]; cbn [fst snd];
    try (split; [reflexivity|]; split; [|discriminate];
         intros message; cbn; split;
         [intros [H|[]]; discriminate H | intros [H _]; discriminate H]).
  all: destruct (present (FINANCIAL_DATASETS_API_KEY e)) eqn:Hk;
    destruct (fetched e) as [m|resp]; cbn -[app js API_PREFIX BASE_URL];
    try (destruct (ok resp) eqn:Hok; cbn -[app js API_PREFIX BASE_URL];
         try (destruct (json resp) eqn:Hj;
              cbn -[app js API_PREFIX BASE_URL])).
  all: split; [rewrite ?filter_app; reflexivity | split].
  all: match goal with
       | |- forall message, In _ _ <-> _ =>
           intros message; rewrite ?in_app_iff; cbn [In]; split;
           [ intros H; decompose [or] H; try discriminate; try contradiction;
             match goal with
             | H' : LogWarn _ = LogWarn _ |- _ => injection H' as <-
             end; auto
           | intros (_ & H & ->); try discriminate H; auto 10 ]
       | |- forall r, _ -> _ =>
           intros r _ H;
           first [ discriminate H
                 | injection H as <-; split; [reflexivity|];
                   exists resp; cbn; auto ]
       end.
Qed.
End ApiProperties.


(** ** get_segmented_revenues *)

Section SegmentsProperties.
Variable number : Type.
Variable number_truthy : number -> bool.
Variable describeRequest : jsstring -> params number -> jsstring.
Variable String_of_number : number -> jsstring.
Variable url_toString : jsstring -> list (jsstring * jsstring) -> jsstring.
Variable TYPE_ERROR_MESSAGE : jsstring.

Let segments :=
  getSegmentedRevenues number_truthy describeRequest String_of_number
                       url_toString TYPE_ERROR_MESSAGE.

(** X25.  When get_segmented_revenues returns a result, the result has at
    no depth a key accession_number, currency or period; it is the stripped
    segmented_revenues of the response body, or the empty object when that
    property is missing or falsy; the source url is the one requested with
    ticker, period and limit; and the cache is never used. *)
Theorem segmented_revenues_are_stripped :
  forall (e : api_env number) (input : SegmentedRevenuesInput number)
         (payload : jsvalue number) (urls : list jsstring),
    snd (segments e input) = Val (payload, urls) ->
    every_key (kept REDUNDANT_FINANCIAL_FIELDS) payload = true
    /\ urls
       = [url_toString
            (js "https://api.financialdatasets.ai/financials/segmented-revenues/")
            [(js "ticker", ticker input);
             (js "period", match period input with
                           | annual => js "annual"
                           | quarterly => js "quarterly"
                           end);
             (js "limit", String_of_number (limit input))]]
    /\ existsb (@is_cache_event number) (fst (segments e input)) = false
    /\ exists resp d,
         fetched e = FetchReturns resp /\ json resp = Some d
         /\ forall sr,
              get_property TYPE_ERROR_MESSAGE d (js "segmented_revenues")
              = Val sr ->
              payload
              = stripFieldsDeep
                  (if value_truthy number_truthy sr then sr else JObject [])
                  REDUNDANT_FINANCIAL_FIELDS.
Proof.
  intros e input payload urls. subst segments. unfold getSegmentedRevenues.
  set (ps := [(js "ticker", PString (ticker input)); _; _]).
  pose proof (callApi_uncached_trace describeRequest String_of_number
                url_toString e (js "/financials/segmented-revenues/") ps)
    as Hc.
  pose proof (@callApi_fresh_result number describeRequest String_of_number
                url_toString e (js "/financials/segmented-revenues/") ps)
    as Hr.
  destruct (callApi describeRequest String_of_number url_toString e
              (js "/financials/segmented-revenues/") ps false)
    as [t [r|m]] eqn:E; cbn [fst snd] in *; [|discriminate].
  destruct (Hr r eq_refl) as (Hu & resp & Hf & _ & Hj).
  destruct (get_property TYPE_ERROR_MESSAGE (data r)
              (js "segmented_revenues")) as [sr|m] eqn:G; [|discriminate].
  intros H. injection H as <- <-. split; [apply walk_keeps_only_kept|].
  split; [rewrite Hu; reflexivity|]. split; [exact Hc|].
  exists resp, (data r). repeat split; auto.
  intros sr' G'. rewrite G in G'. injection G' as <-. reflexivity.
Qed.
End SegmentsProperties.


(** ** Examples *)

Lemma refs_kept_by_other_actions_witness :
  currentRefs snapshot_state <> []
  /\ currentRefs (snd (func (url_input navigate "https://b.test")
                            snapshot_state))
     = currentRefs snapshot_state.
Proof.
  split; [vm_compute; discriminate|].
  apply refs_kept_by_other_actions; discriminate.
Defined.

Lemma session_kept_by_other_actions_witness :
  browser (snd (func read_input active_state)) = Some 0
  /\ page (snd (func read_input active_state)) = Some page0.
Proof.
  assert (Hb : browser active_state = Some 0) by (vm_compute; reflexivity).
  assert (Hp : page active_state = Some page0) by (vm_compute; reflexivity).
  assert (Hc : action_of read_input <> close) by discriminate.
  assert (Ho : action_of read_input <> open) by discriminate.
  destruct (@session_kept_by_other_actions read_input active_state 0 Hc Hb)
    as (H1 & _ & H3).
  split; [exact H1|]. exact (proj1 (H3 page0 Ho Hp)).
Defined.

Lemma ensureBrowser_idempotent_witness :
  let st' := snd (ensureBrowser (init true [])) in
  ensureBrowser st' = (Val page0, st').
Proof.
  intros st'.
  apply (@ensureBrowser_idempotent (init true []) st' page0).
  vm_compute. reflexivity.
Defined.

Lemma lazy_initialisation_witness :
  exists new,
    calls (snd (func read_input active_state)) = calls active_state ++ new
    /\ ~ In Launch new
    /\ (forall p, page active_state = Some p -> action_of read_input <> open ->
                  forallb (fun c => negb (is_creation c)) new = true).
Proof.
  apply (@lazy_initialisation read_input active_state 0).
  vm_compute. reflexivity.
Defined.

Lemma ensureBrowser_failures_witness :
  let st := init true [Returns None; Throws (js "no display")] in
  fst (ensureBrowser st) = Exn (js "no display")
  /\ browser (snd (ensureBrowser st)) = Some 0
  /\ page (snd (ensureBrowser st)) = None.
Proof.
  intros st.
  destruct (proj2 (@ensureBrowser_failures st eq_refl eq_refl)
                  None (js "no display") [] eq_refl)
    as (H1 & H2 & H3 & _).
  repeat split; assumption.
Defined.

Lemma close_failure_keeps_session_witness :
  let st := set_env [Throws (js "boom")] active_state in
  browser (snd (func close_input st)) = Some 0
  /\ page (snd (func close_input st)) = page st.
Proof.
  intros st.
  assert (Hb : browser st = Some 0) by (vm_compute; reflexivity).
  destruct (@close_failure_keeps_session close_input st 0 (js "boom")
              eq_refl Hb eq_refl) as (_ & H1 & H2 & _).
  split; assumption.
Defined.

Lemma settle_wait_is_swallowed_witness :
  let st := set_env [Returns None; Throws (js "Timeout 10000ms exceeded")]
                    snapshot_state in
  let r := act_request click (Some (js "e1")) None None in
  fst (func (act_input r) st) = PClicked (js "e1") CLICK_HINT.
Proof.
  intros st r.
  assert (Hb : browser st = Some 0) by (vm_compute; reflexivity).
  assert (Hp : page st = Some page0) by (vm_compute; reflexivity).
  destruct (@settle_wait_is_swallowed (act_input r) r st 0 page0 None
              (Throws (js "Timeout 10000ms exceeded")) []
              eq_refl eq_refl Hb Hp eq_refl) as [H _].
  exact (proj1 (H (js "e1") eq_refl eq_refl eq_refl)).
Defined.

Lemma open_goto_failure_leaves_page_witness :
  let st := set_env [Returns None; Throws (js "net::ERR_FAILED")]
                    active_state in
  page (snd (func (url_input open "https://b.test") st)) = Some page0
  /\ length (open_pages (snd (func (url_input open "https://b.test") st)))
     = S (length (open_pages st)).
Proof.
  intros st.
  assert (Hb : browser st = Some 0) by (vm_compute; reflexivity).
  assert (Hp : page st = Some page0) by (vm_compute; reflexivity).
  destruct (@open_goto_failure_leaves_page (url_input open "https://b.test")
              st 0 page0 (js "https://b.test") None (js "net::ERR_FAILED") []
              eq_refl eq_refl eq_refl Hb Hp eq_refl) as (_ & H1 & H2 & _).
  split; [exact H1|]. rewrite H2. reflexivity.
Defined.

Lemma missing_field_messages_witness :
  let r := act_request hover (Some []) None None in
  func (act_input r) active_state
  = (PError (js "ref is required for hover"), active_state).
Proof.
  intros r.
  assert (Hb : browser active_state = Some 0) by (vm_compute; reflexivity).
  assert (Hp : page active_state = Some page0) by (vm_compute; reflexivity).
  destruct (@missing_field_messages (act_input r) r active_state 0 page0
              eq_refl eq_refl Hb Hp) as (_ & H & _).
  exact (H eq_refl eq_refl).
Defined.

Lemma wait_is_clamped_witness :
  let r := act_request wait None None (Some 60000%Z) in
  fst (func (act_input r) active_state) = PWaited 10000.
Proof.
  intros r.
  assert (Hb : browser active_state = Some 0) by (vm_compute; reflexivity).
  assert (Hp : page active_state = Some page0) by (vm_compute; reflexivity).
  assert (Hv : next_answer active_state = Returns None)
    by (vm_compute; reflexivity).
  exact (proj1 (@wait_is_clamped (act_input r) r active_state 0 page0 None
                  eq_refl eq_refl eq_refl Hb Hp Hv)).
Defined.

Lemma truncate_keeps_a_prefix_witness :
  fst (truncate (js "abc") (Some (-1)%Z)) = js "ab" ++ TRUNCATION_MARKER
  /\ fst (truncate (js "abc") (Some (-7)%Z)) = TRUNCATION_MARKER.
Proof.
  split.
  - destruct (truncate_keeps_a_prefix (js "abc") (Some (-1)%Z))
      as (_ & _ & _ & H).
    rewrite H by (cbn; lia). reflexivity.
  - destruct (truncate_keeps_a_prefix (js "abc") (Some (-7)%Z))
      as (_ & _ & _ & H).
    rewrite H by (cbn; lia). reflexivity.
Defined.

Lemma parse_appended_lines_witness :
  let a := js "- link " ++ q (js "Docs") ++ js " [ref=e1]" in
  let b := js "- button " ++ q (js "Go") ++ js " [ref=e2]" in
  In (js "e1") (map_keys (parseRefsFromSnapshot (a ++ LF :: b))).
Proof.
  intros a b. apply (proj2 (parse_appended_lines a b)).
  vm_compute. left. reflexivity.
Defined.

Lemma key_iff_ref_of_a_line_witness :
  let text := js "main:" ++ [LF] ++ js "  - link " ++ q (js "Docs")
              ++ js " [ref=e1]" in
  map_get (parseRefsFromSnapshot text) (js "e1") <> None
  /\ parseRefsFromSnapshot (js "main:") = [].
Proof.
  intros text. split.
  - apply (proj1 (key_iff_ref_of_a_line text (js "e1"))).
    exists (js "  - link " ++ q (js "Docs") ++ js " [ref=e1]"). split.
    + vm_compute. right. left. reflexivity.
    + apply ref_re_some. vm_compute. reflexivity.
  - apply (proj2 (key_iff_ref_of_a_line (js "main:") [])).
    intros line [<-|[]]. apply ref_re_none. vm_compute. reflexivity.
Defined.

Lemma parsed_entries_are_well_formed_witness :
  let text := js "  - button " ++ q (js "Search") ++ js " [ref=e7] [nth=2]" in
  let e := {| role := js "button"; name := Some (js "Search");
              nth := Some (Finite 2) |} in
  is_ref_id (js "e7") /\ role e <> [] /\ all_of is_word (role e).
Proof.
  intros text e.
  destruct (@parsed_entries_are_well_formed text (js "e7") e eq_refl)
    as (H1 & H2 & H3 & _).
  repeat split; assumption.
Defined.

Lemma reachable_session_is_sound_witness :
  In page0 (open_pages active_state)
  /\ browser active_state = Some 0.
Proof.
  assert (Hr : reachable active_state).
  { exact (reach_step (url_input navigate "https://a.test") []
                      (reach_init true [])). }
  assert (Hp : page active_state = Some page0) by (vm_compute; reflexivity).
  destruct (proj1 (reachable_session_is_sound Hr) page0 Hp) as (H1 & H2 & _).
  split; assumption.
Defined.

Lemma web_search_provider_priority_witness :
  let D := {| FINANCIAL_SEARCH_DESCRIPTION := []; FINANCIAL_METRICS_DESCRIPTION := [];
              READ_FILINGS_DESCRIPTION := []; WEB_FETCH_DESCRIPTION := [];
              READ_FILE_DESCRIPTION := []; WRITE_FILE_DESCRIPTION := [];
              EDIT_FILE_DESCRIPTION := []; WEB_SEARCH_DESCRIPTION := js "search";
              SKILL_TOOL_DESCRIPTION := [] |} in
  let env := {| EXASEARCH_API_KEY := Some []; PERPLEXITY_API_KEY := Some (js "k");
                TAVILY_API_KEY := Some (js "t") |} in
  let t := {| rt_name := js "web_search"; rt_tool := perplexitySearch;
              rt_description := js "search" |} in
  In t (getToolRegistry D env (@nil unit) (js "gpt")).
Proof.
  intros D env t.
  apply (proj2 (web_search_provider_priority D env (@nil unit) (js "gpt") t)).
  split; reflexivity.
Defined.

Lemma registry_tools_and_sections_witness :
  let D := {| FINANCIAL_SEARCH_DESCRIPTION := []; FINANCIAL_METRICS_DESCRIPTION := [];
              READ_FILINGS_DESCRIPTION := []; WEB_FETCH_DESCRIPTION := [];
              READ_FILE_DESCRIPTION := []; WRITE_FILE_DESCRIPTION := [];
              EDIT_FILE_DESCRIPTION := []; WEB_SEARCH_DESCRIPTION := [];
              SKILL_TOOL_DESCRIPTION := js "skills" |} in
  let env := {| EXASEARCH_API_KEY := None; PERPLEXITY_API_KEY := None;
                TAVILY_API_KEY := None |} in
  In skillTool (getTools D env [tt] (js "gpt"))
  /\ exists before after,
       buildToolDescriptions D env [tt] (js "gpt")
       = before ++ (js "### browser" ++ [LF; LF] ++ BROWSER_DESCRIPTION)
                ++ after.
Proof.
  intros D env.
  destruct (registry_tools_and_sections D env [tt] (js "gpt"))
    as (_ & H2 & _ & H4).
  split.
  - apply (proj2 H2). discriminate.
  - apply (H4 {| rt_name := js "browser"; rt_tool := browserTool;
                 rt_description := BROWSER_DESCRIPTION |}).
    cbn -[js BROWSER_DESCRIPTION]. tauto.
Defined.

Lemma strip_fixpoint_witness :
  let v : jsvalue Z :=
    JObject [(js "revenue", JNumber 5%Z);
             (js "items", JArray [JObject [(js "name", JString (js "iPhone"))]])] in
  stripFieldsDeep v REDUNDANT_FINANCIAL_FIELDS = v.
Proof.
  intros v. apply (proj2 (strip_fixpoint REDUNDANT_FINANCIAL_FIELDS v)).
  vm_compute. reflexivity.
Defined.

Lemma api_cache_discipline_witness :
  let api := callApi (fun ep (_ : params Z) => ep) (fun _ : Z => js "4")
                     (fun base _ => base) in
  let c := {| data := @JNull Z; response_url := js "cached" |} in
  let e := {| cached := Some c; FINANCIAL_DATASETS_API_KEY := None;
              fetched := FetchThrows (js "offline") |} in
  api e (js "/news") [] true = ([ReadCache (js "/news") []], Val c)
  /\ existsb (@is_cache_event Z) (fst (api e (js "/news") [] false)) = false.
Proof.
  intros api c e.
  destruct (api_cache_discipline (fun ep (_ : params Z) => ep)
              (fun _ : Z => js "4") (fun base _ => base)
              e (js "/news") [] true) as (_ & H & _).
  destruct (H c eq_refl eq_refl) as [H1 H2].
  split.
  - subst api. rewrite (surjective_pairing (callApi _ _ _ e (js "/news") [] true)).
    now rewrite H1, H2.
  - exact (proj1 (api_cache_discipline (fun ep (_ : params Z) => ep)
                    (fun _ : Z => js "4") (fun base _ => base)
                    e (js "/news") [] false) eq_refl).
Defined.

Lemma api_failures_are_reported_witness :
  let e := {| cached := @None (ApiResponse Z);
              FINANCIAL_DATASETS_API_KEY := Some (js "k");
              fetched := FetchReturns {| ok := false; status := 429%Z;
                                         statusText := js "Too Many Requests";
                                         json := None |} |} in
  exists detail message t',
    js "[Financial Datasets API] request failed: 429 Too Many Requests"
    = js "[Financial Datasets API] request failed" ++ detail
    /\ fst (callApi (fun ep (_ : params Z) => ep) (fun _ : Z => js "429")
                    (fun base _ => base) e (js "/news") [] false)
       = t' ++ [LogError message]
    /\ existsb (@is_write Z)
               (fst (callApi (fun ep (_ : params Z) => ep)
                             (fun _ : Z => js "429")
                             (fun base _ => base) e (js "/news") [] false))
       = false.
Proof.
  intros e.
  apply (@api_failures_are_reported Z (fun ep (_ : params Z) => ep)
           (fun _ : Z => js "429") (fun base _ => base) e (js "/news") []
           false).
  vm_compute. reflexivity.
Defined.

Lemma api_requests_once_witness :
  let api := callApi (fun ep (_ : params Z) => ep) (fun _ : Z => js "4")
                     (fun base _ => base) in
  exists r,
    snd (api sample_api_env (js "/news") [] false) = Val r
    /\ response_url r = js "https://api.financialdatasets.ai/news".
Proof.
  intros api.
  assert (E : exists r, snd (api sample_api_env (js "/news") [] false)
                        = Val r)
    by (vm_compute; eexists; reflexivity).
  destruct E as [r E]. exists r. split; [exact E|].
  destruct (api_requests_once (fun ep (_ : params Z) => ep)
              (fun _ : Z => js "4") (fun base _ => base)
              sample_api_env (js "/news") [] false) as (_ & _ & H3).
  exact (proj1 (H3 r eq_refl E)).
Defined.

Lemma segmented_revenues_are_stripped_witness :
  let input := {| ticker := js "AAPL"; period := annual; limit := 4%Z |} in
  let payload : jsvalue Z :=
    JArray [JObject [(js "ticker", JString (js "AAPL"));
                     (js "items", JArray [])]] in
  every_key (kept REDUNDANT_FINANCIAL_FIELDS) payload = true.
Proof.
  intros input payload.
  refine (proj1 (@segmented_revenues_are_stripped Z (fun z => negb (Z.eqb z 0))
                   (fun ep (_ : params Z) => ep) (fun _ : Z => js "4")
                   (fun base _ => base) (js "TypeError")
                   sample_api_env input payload
                   [js "https://api.financialdatasets.ai/financials/segmented-revenues/"]
                   _)).
  vm_compute. reflexivity.
Defined.
